(** * The legacy relay control core of the relayer, and the settlement query shim

    A shallow embedding of the relay control core of package [relayer] (the
    legacy per-channel scheduler, the channel worker and its packet and
    acknowledgement passes) and of
    [relayer/provider/cosmos/settlement-client.go].

    Conventions of the embedding:
    - a Go [error] value is an [option error]: [None] is [nil];
    - [int64] and [uint64] values are [Z], with the wrap-around written out;
    - collaborators that live outside these two files (the chain providers,
      [QueryLatestHeights], [UnrelayedSequences], [RelayPackets],
      [unrelayedAcknowledgements], [relayAcknowledgements]) are oracles: an
      environment record holds, for one pass, what each of them answers;
    - every pass returns, next to its Go result, the trace of what it did:
      the log lines it wrote and the collaborator calls it made, with the
      arguments it passed;
    - a Go map is a [gmap], a slice is a header (array, offset, length,
      capacity) over a store of backing arrays. *)

From Stdlib Require Import ZArith Ascii String List Lia Bool.
From stdpp Require Import base option list gmap strings fin_maps.

Local Open Scope string_scope.
Local Open Scope list_scope.
Local Open Scope Z_scope.

(** ** Machine integers *)

Module Int.

Definition two63 : Z := 2 ^ 63.
Definition two64 : Z := 2 ^ 64.

Definition min_int64 : Z := - two63.
Definition max_int64 : Z := two63 - 1.
Definition max_uint64 : Z := two64 - 1.

Definition is_int64 (z : Z) : Prop := min_int64 <= z <= max_int64.
Definition is_uint64 (z : Z) : Prop := 0 <= z <= max_uint64.

(** Reduction of a mathematical integer to the value a 64-bit register
    holds, read unsigned and read signed. *)
Definition wrap_uint64 (z : Z) : Z := z mod two64.
Definition wrap_int64 (z : Z) : Z := (z + two63) mod two64 - two63.

(** [a - b] on [int64], [a + b] and [a - b] on [uint64], and the
    conversion [int64(u)] of a [uint64]. *)
Definition sub_int64 (a b : Z) : Z := wrap_int64 (a - b).
Definition add_uint64 (a b : Z) : Z := wrap_uint64 (a + b).
Definition sub_uint64 (a b : Z) : Z := wrap_uint64 (a - b).
Definition int64_of_uint64 (u : Z) : Z := wrap_int64 u.

End Int.

(** ** Go errors *)

(** An error is one of the two context sentinels, an error made from a
    message, or an error that wraps another one under a message of its own
    (the message is the whole formatted text, as [Error()] returns it). *)
Inductive error : Type :=
| context_Canceled
| context_DeadlineExceeded
| errors_New (msg : string)
| fmt_Errorf_w (msg : string) (cause : error).

Inductive sentinel : Type := Canceled | DeadlineExceeded.

(** [err.Error()] *)
Definition Error (e : error) : string :=
  match e with
  | context_Canceled => "context canceled"
  | context_DeadlineExceeded => "context deadline exceeded"
  | errors_New msg => msg
  | fmt_Errorf_w msg _ => msg
  end.

(** [errors.Is(err, target)] for the two context sentinels: the chain of
    wrapped errors is walked until the target is met. *)
Fixpoint errors_Is (e : error) (target : sentinel) : bool :=
  match e, target with
  | context_Canceled, Canceled => true
  | context_DeadlineExceeded, DeadlineExceeded => true
  | fmt_Errorf_w _ cause, _ => errors_Is cause target
  | _, _ => false
  end.

(** [errors.Is(err, context.DeadlineExceeded) || errors.Is(err, context.Canceled)],
    the test both passes make first on an error of the relay call. *)
Definition is_context_error (e : error) : bool :=
  errors_Is e DeadlineExceeded || errors_Is e Canceled.

(** ** [strings.Contains] *)

Module Strings.

Fixpoint HasPrefix (s prefix : string) {struct prefix} : bool :=
  match prefix, s with
  | EmptyString, _ => true
  | String p prefix', String c s' => Ascii.eqb c p && HasPrefix s' prefix'
  | String _ _, EmptyString => false
  end.

Fixpoint Contains (s substr : string) : bool :=
  HasPrefix s substr ||
  match s with
  | EmptyString => false
  | String _ s' => Contains s' substr
  end.

End Strings.

(** ** Data model *)

(** [types.State] of a channel end. *)
Inductive types_State : Type := UNINITIALIZED | INIT | TRYOPEN | OPEN | CLOSED.

Definition State_eqb (a b : types_State) : bool :=
  match a, b with
  | UNINITIALIZED, UNINITIALIZED | INIT, INIT | TRYOPEN, TRYOPEN
  | OPEN, OPEN | CLOSED, CLOSED => true
  | _, _ => false
  end.

Record types_Counterparty : Type := {
  counterparty_PortId : string;
  counterparty_ChannelId : string
}.

(** [types.IdentifiedChannel], with the fields the control core reads. *)
Record IdentifiedChannel : Type := {
  State : types_State;
  Counterparty : types_Counterparty;
  PortId : string;
  ChannelId : string
}.

(** [ActiveChannel]: a channel and whether a goroutine relays on it. *)
Record ActiveChannel : Type := {
  channel : IdentifiedChannel;
  active : bool
}.

Definition set_active (b : bool) (c : ActiveChannel) : ActiveChannel :=
  {| channel := channel c; active := b |}.

(** [ChannelFilter]: a rule and the channel ids it lists. *)
Record ChannelFilter : Type := {
  Rule : string;
  ChannelList : list string
}.

(** The part of a [Chain] the control core formats into messages. *)
Record Chain : Type := {
  ChainID : string;
  ConnectionID : string
}.

(** [RelaySequences]: the unrelayed packet sequences of either side. *)
Record RelaySequences : Type := {
  Src : list Z;
  Dst : list Z
}.

(** Modelled from the spec: the method [Empty] of [RelaySequences] is declared
    outside these files; a sequence set is empty iff both sides are drained. *)
Definition Empty (sp : RelaySequences) : bool :=
  (length (Src sp) =? 0)%nat && (length (Dst sp) =? 0)%nat.

(** One side of an acknowledgement pass, as the helper receives it: the
    chain, the channel and the port. *)
Record Endpoint : Type := {
  ep_chain : string;
  ep_channel : string;
  ep_port : string
}.

(** ** Slices over a store of backing arrays *)

(** A slice value is a header: the backing array it points into, the offset
    of its first cell there, its length and its capacity. Copying a slice
    copies the header; the array is shared. *)
Record Slice : Type := {
  slice_array : nat;
  slice_off : nat;
  slice_len : nat;
  slice_cap : nat
}.

Abbreviation Store := (gmap nat (list Z)).



(** The literal [[]uint64{}]: no cell, whatever the store. *)
Definition empty_slice : Slice :=
  {| slice_array := 0; slice_off := 0; slice_len := 0; slice_cap := 0 |}.



(** ** Traces, panics and goroutines *)

Inductive Level : Type := DebugLevel | InfoLevel | WarnLevel | ErrorLevel.

(** What a pass leaves behind: log lines, and calls to the collaborators
    with the heights (and sequences) they were given. *)
Inductive Event : Type :=
| Log (lvl : Level) (msg : string)
| Call_QueryLatestHeights
| Call_UnrelayedSequences (srch dsth : Z)
| Call_RelayPackets (srch dsth : Z) (sp : RelaySequences)
| Call_unrelayedAcknowledgements (src : Endpoint) (srch : Z) (dst : Endpoint) (dsth : Z)
| Call_relayAcknowledgements (src : Endpoint) (srch : Z) (seqs : list Z) (dst : Endpoint).

(** How a piece of Go code ends:
    - it returns a value;
    - it panics: the panic unwinds the current goroutine, running the
      deferred functions on its way; nothing here calls [recover];
    - the process is gone: a panic has reached the top of some goroutine;
    - it blocks for ever on a channel operation. *)
Inductive Outcome (A : Type) : Type :=
| Returns (a : A)
| Panics (v : error)
| Crashes (v : error)
| Blocks.

Arguments Returns {A} a.
Arguments Panics {A} v.
Arguments Crashes {A} v.
Arguments Blocks {A}.

Definition Go (A : Type) : Type := list Event * Outcome A.

Definition ret {A} (a : A) : Go A := ([], Returns a).

Definition bind {A B} (m : Go A) (k : A -> Go B) : Go B :=
  match m with
  | (t, Returns a) => let (t', o) := k a in (t ++ t', o)
  | (t, Panics v) => (t, Panics v)
  | (t, Crashes v) => (t, Crashes v)
  | (t, Blocks) => (t, Blocks)
  end.

Notation "'do' x <- m ; k" := (bind m (fun x => k))
  (at level 10, x name, m at level 100, k at level 200).
Notation "'do' ' p <- m ; k" := (bind m (fun x => let 'p := x in k))
  (at level 10, p pattern, m at level 100, k at level 200).
Notation "'run' m ; k" := (bind m (fun _ => k))
  (at level 10, m at level 100, k at level 200).

Definition emit (e : Event) : Go unit := ([e], Returns tt).
Definition log (lvl : Level) (msg : string) : Go unit := emit (Log lvl msg).
Definition panic {A} (v : error) : Go A := ([], Panics v).

(** A call to a collaborator: the call is recorded, then the collaborator
    returns or panics as the environment says. *)
Definition call {A} (e : Event) (answer : Outcome A) : Go A := ([e], answer).

(** Code that runs in a goroutine of its own, as the two helpers of an
    acknowledgement pass ([go func() { defer wg.Done(); ... }()], then
    [wg.Wait()]) and as every worker do. A panic in it is recovered by
    nobody, reaches the top of that goroutine and ends the process. *)
Definition goroutine {A} (m : Go A) : Go A :=
  match m with
  | (t, Panics v) => (t, Crashes v)
  | other => other
  end.

Definition trace_of {A} (m : Go A) : list Event := fst m.
Definition outcome_of {A} (m : Go A) : Outcome A := snd m.

(** ** The channel filter and the legacy scheduler *)

Section LegacyScheduler.

(** The two rule constants the filter switches on, [allowList] and
    [denyList]; they are declared outside these files, so they are taken as
    parameters. Any other rule value is the passthrough rule. *)
Variables allowList denyList : string.

(** The search of a channel id in a list of channel ids. *)
Fixpoint inList (l : list string) (channelID : string) : bool :=
  match l with
  | [] => false
  | c :: l' => if String.eqb c channelID then true else inList l' channelID
  end.

(** Modelled from the spec: the method [InChannelList] of [ChannelFilter] is
    declared outside these files; a channel id is in the list of the filter
    iff it equals one of its entries. *)
Definition InChannelList (cf : ChannelFilter) (channelID : string) : bool :=
  inList (ChannelList cf) channelID.

(** [applyChannelFilterRule]: the [switch] tries [allowList], then
    [denyList], then the default; each loop appends the channels it keeps to
    [filteredChans], which starts out [nil]. *)
Definition applyChannelFilterRule (filter : ChannelFilter)
    (channels : list IdentifiedChannel) : list IdentifiedChannel :=
  if String.eqb (Rule filter) allowList then
    fold_left
      (fun filteredChans c =>
         if InChannelList filter (ChannelId c) then filteredChans ++ [c]
         else filteredChans)
      channels []
  else if String.eqb (Rule filter) denyList then
    fold_left
      (fun filteredChans c =>
         if InChannelList filter (ChannelId c) then filteredChans
         else filteredChans ++ [c])
      channels []
  else channels.

(** The body of the loop of [filterOpenChannels]. *)
Definition open_step (openChannels : gmap string ActiveChannel) (c : IdentifiedChannel)
    : gmap string ActiveChannel :=
  if State_eqb (State c) OPEN
  then <[ChannelId c := {| channel := c; active := false |}]> openChannels
  else openChannels.

(** [filterOpenChannels]: the map of the OPEN channels by channel id, none
    of them active yet; a later channel with the same id replaces an
    earlier one. *)
Definition filterOpenChannels (channels : list IdentifiedChannel)
    : gmap string ActiveChannel :=
  fold_left open_step channels ∅.

(** What the provider answers during channel discovery; for
    [QueryConnectionChannels] the answer is that of the whole retry loop. *)
Record DiscoveryEnv : Type := {
  QueryLatestHeight : error + Z;
  QueryConnectionChannels : Z -> error + list IdentifiedChannel
}.

Definition queryChannelsOnConnection (env : DiscoveryEnv)
    : error + list IdentifiedChannel :=
  match QueryLatestHeight env with
  | inl err => inl err
  | inr srch => QueryConnectionChannels env srch
  end.

(** The scheduler's variables: the map of open channels, the capacity the
    completion queue [channels] was made with ([None] before it is made),
    the counter of the wait group, the channel ids of the workers started
    so far (one per [go] statement executed) and what was sent on [errCh]. *)
Record Scheduler : Type := {
  srcOpenChannels : gmap string ActiveChannel;
  channels_cap : option nat;
  wg : Z;
  started : list string;
  errCh : list error
}.

(** What wakes the scheduler's [select]: a worker's completion arrives on
    [channels] (followed by the answer of the retried [QueryChannel] for
    that channel), or the context is done. *)
Inductive SelectEvent : Type :=
| WorkerExited (channelId : string) (queryChannel : error + types_State)
| ContextDone (ctxErr : error).

Inductive LoopStatus : Type :=
| LoopReturned
| LoopWaiting.

Definition send_error (e : error) (st : Scheduler) : Scheduler :=
  {| srcOpenChannels := srcOpenChannels st; channels_cap := channels_cap st;
     wg := wg st; started := started st; errCh := errCh st ++ [e] |}.

Definition with_channels (m : gmap string ActiveChannel) (st : Scheduler) : Scheduler :=
  {| srcOpenChannels := m; channels_cap := channels_cap st;
     wg := wg st; started := started st; errCh := errCh st |}.

(** The ids of the channels no goroutine relays on. *)
Definition inactive_ids (m : gmap string ActiveChannel) : list string :=
  map fst (List.filter (fun kc => negb (active (snd kc))) (map_to_list m)).

(** The loop over [srcOpenChannels] that starts a worker on every channel
    that is not active, after [wg.Add(1)], and marks it active. *)
Definition spawn_inactive (st : Scheduler) : Scheduler :=
  let ids := inactive_ids (srcOpenChannels st) in
  {| srcOpenChannels := set_active true <$> srcOpenChannels st;
     channels_cap := channels_cap st;
     wg := wg st + Z.of_nat (length ids);
     started := started st ++ ids;
     errCh := errCh st |}.

(** Every worker has called [wg.Done()] when [wg.Wait()] returns. *)
Definition wg_Wait (st : Scheduler) : Scheduler :=
  {| srcOpenChannels := srcOpenChannels st; channels_cap := channels_cap st;
     wg := 0; started := started st; errCh := errCh st |}.

(** The worker that exits has called [wg.Done()] before its send. *)
Definition worker_done (st : Scheduler) : Scheduler :=
  {| srcOpenChannels := srcOpenChannels st; channels_cap := channels_cap st;
     wg := wg st - 1; started := started st; errCh := errCh st |}.

(** [fmt.Errorf("there are no open channels to relay on")] *)
Definition no_open_channels : error :=
  errors_New "there are no open channels to relay on".

(** The [for] loop of [relayerMainLoop], one iteration per event. *)
Fixpoint schedulerLoop (events : list SelectEvent) (st : Scheduler)
    : Scheduler * LoopStatus :=
  if (size (srcOpenChannels st) =? 0)%nat then
    (send_error no_open_channels st, LoopReturned)
  else
    let st := spawn_inactive st in
    match events with
    | [] => (st, LoopWaiting)
    | ContextDone ctxErr :: _ =>
        (send_error ctxErr (wg_Wait st), LoopReturned)
    | WorkerExited id queryChannel :: events' =>
        let st := worker_done st in
        let st := with_channels (alter (set_active false) id (srcOpenChannels st)) st in
        match queryChannel with
        | inl err => (send_error err st, LoopReturned)
        | inr state =>
            if State_eqb state OPEN then schedulerLoop events' st
            else schedulerLoop events' (with_channels (delete id (srcOpenChannels st)) st)
        end
    end.

Definition relayerMainLoop (src : Chain) (env : DiscoveryEnv) (filter : ChannelFilter)
    (events : list SelectEvent) : Scheduler * LoopStatus :=
  let start :=
    {| srcOpenChannels := ∅; channels_cap := None; wg := 0; started := []; errCh := [] |} in
  match queryChannelsOnConnection env with
  | inl err =>
      if errors_Is err Canceled then (send_error err start, LoopReturned)
      else
        (send_error
           (fmt_Errorf_w
              ("error querying all channels on chain{" ++ ChainID src
               ++ "}@connection{" ++ ConnectionID src ++ "}: " ++ Error err)%string
              err)
           start, LoopReturned)
  | inr srcChannels =>
      let capacity := length srcChannels in
      let srcChannels := applyChannelFilterRule filter srcChannels in
      schedulerLoop events
        {| srcOpenChannels := filterOpenChannels srcChannels;
           channels_cap := Some capacity;
           wg := 0; started := []; errCh := [] |}
  end.

(** The workers started before the scheduler first waits. *)
Definition initial_workers (src : Chain) (env : DiscoveryEnv) (filter : ChannelFilter)
    : list string :=
  started (fst (relayerMainLoop src env filter [])).

End LegacyScheduler.

(** ** The packet pass *)

(** What the collaborators of one packet pass answer. A call returns or
    panics; [UnrelayedSequences] and [RelayPackets] answer by the heights
    (and sequences) they are called with. *)
Record PacketEnv : Type := {
  pk_QueryLatestHeights : Outcome (error + Z * Z);
  pk_UnrelayedSequences : Z -> Z -> Outcome RelaySequences;
  pk_RelayPackets : Z -> Z -> RelaySequences -> Outcome (option error)
}.

Definition indexing_disabled : string :=
  "Internal error: transaction indexing is disabled".

Definition relayUnrelayedPackets (env : PacketEnv) : Go bool :=
  do heights <- call Call_QueryLatestHeights (pk_QueryLatestHeights env);
  match heights with
  | inl _ =>
      run log WarnLevel "QueryLatestHeights error";
      ret false
  | inr (srch, dsth) =>
      do sp <- call (Call_UnrelayedSequences (Int.sub_int64 srch 1) (Int.sub_int64 dsth 1))
                 (pk_UnrelayedSequences env (Int.sub_int64 srch 1) (Int.sub_int64 dsth 1));
      if Empty sp then
        run log DebugLevel "No packets in queue";
        ret true
      else
        run (if (0 <? length (Src sp))%nat
             then log InfoLevel "Unrelayed source packets" else ret tt);
        run (if (0 <? length (Dst sp))%nat
             then log InfoLevel "Unrelayed destination packets" else ret tt);
        do err <- call (Call_RelayPackets srch dsth sp) (pk_RelayPackets env srch dsth sp);
        match err with
        | Some err =>
            if is_context_error err then
              run log WarnLevel "Context finished while waiting for RelayPackets to complete";
              ret false
            else if Strings.Contains (Error err) indexing_disabled then
              run log WarnLevel "Remote server needs to enable transaction indexing";
              ret false
            else
              run log WarnLevel "Relay packets error";
              ret true
        | None => ret true
        end
  end.

(** ** The acknowledgement pass *)

(** What the collaborators of one direction of an acknowledgement pass
    answer. [unrelayedAcknowledgements] is handed a pointer to the candidate
    slice: it may write to the store and to that slice, and answers with
    both as it leaves them, with the sequences and with its error. *)
Record AckEnv : Type := {
  ak_unrelayedAcknowledgements :
    Z -> Z -> Store -> Slice -> Outcome (Store * Slice * list Z * option error);
  ak_relayAcknowledgements : Z -> list Z -> Outcome (option error)
}.

(** The helper, on the store [h] and the slice [*relayedAckSequences]; it
    returns the store, the slice [*relayedAckSequences] holds when it
    returns, and its error. The [return err] in the middle of the body is
    the [inl] of the inner result. *)
Definition relayUnrelayedAcksHelper (env : AckEnv)
    (src : Endpoint) (srch : Z) (dst : Endpoint) (dsth : Z)
    (h : Store) (relayedAckSequences : Slice)
    : Go (Store * Slice * option error) :=
  let adjustedSrch := Int.sub_int64 srch 1 in
  let adjustedDsth := Int.sub_int64 dsth 1 in
  let relayedAckSequencesCandidated := relayedAckSequences in
  do answer <- call (Call_unrelayedAcknowledgements src adjustedSrch dst adjustedDsth)
                 (ak_unrelayedAcknowledgements env adjustedSrch adjustedDsth
                    h relayedAckSequencesCandidated);
  let '(h, relayedAckSequencesCandidated, sequences, err) := answer in
  do flow <-
    (if negb (length sequences =? 0)%nat then
       match err with
       | Some e =>
           run log ErrorLevel
                 "unrelayedAcknowledgements returned: len(sequences)>0, but err != nil";
           panic e
       | None =>
           do err <- call (Call_relayAcknowledgements src srch sequences dst)
                       (ak_relayAcknowledgements env srch sequences);
           match err with
           | Some e =>
               if is_context_error e then
                 run log WarnLevel
                       "Context finished while waiting for RelayAcknowledgements to complete";
                 ret (inl e)
               else
                 run log WarnLevel "Relay acknowledgements error";
                 ret (inr (Some e))
           | None => ret (inr None)
           end
       end
     else
       run log DebugLevel "No acknowledgements in queue";
       ret (inr err));
  match flow with
  | inl e => ret (h, relayedAckSequences, Some e)
  | inr (Some e) =>
      run log WarnLevel "unrelayedAcknowledgements failed";
      ret (h, relayedAckSequences, Some e)
  | inr None => ret (h, relayedAckSequencesCandidated, None)
  end.

(** What the collaborators of one acknowledgement pass answer: the heights,
    and one environment per direction. *)
Record AcksEnv : Type := {
  ak_QueryLatestHeights : Outcome (error + Z * Z);
  ak_src : AckEnv;
  ak_dst : AckEnv
}.

Definition src_end (src : Chain) (srcChannel : IdentifiedChannel) : Endpoint :=
  {| ep_chain := ChainID src;
     ep_channel := ChannelId srcChannel;
     ep_port := PortId srcChannel |}.

Definition dst_end (dst : Chain) (srcChannel : IdentifiedChannel) : Endpoint :=
  {| ep_chain := ChainID dst;
     ep_channel := counterparty_ChannelId (Counterparty srcChannel);
     ep_port := counterparty_PortId (Counterparty srcChannel) |}.

(** [relayUnrelayedAcks]. The two helpers run in goroutines of their own,
    on two slices and two environments; the model runs the source direction
    first and the destination direction next. *)
Definition relayUnrelayedAcks (env : AcksEnv) (src dst : Chain)
    (srcChannel : IdentifiedChannel) (h : Store)
    (relayedAckSequencesSrc relayedAckSequencesDst : Slice)
    : Go (Store * Slice * Slice * bool) :=
  do heights <- call Call_QueryLatestHeights (ak_QueryLatestHeights env);
  match heights with
  | inl _ =>
      run log WarnLevel "QueryLatestHeights error";
      ret (h, relayedAckSequencesSrc, relayedAckSequencesDst, false)
  | inr (srch, dsth) =>
      do a <- goroutine
                (relayUnrelayedAcksHelper (ak_src env)
                   (src_end src srcChannel) srch (dst_end dst srcChannel) dsth
                   h relayedAckSequencesSrc);
      let '(h, relayedAckSequencesSrc, srcErr) := a in
      do b <- goroutine
                (relayUnrelayedAcksHelper (ak_dst env)
                   (dst_end dst srcChannel) dsth (src_end src srcChannel) srch
                   h relayedAckSequencesDst);
      let '(h, relayedAckSequencesDst, DstErr) := b in
      match srcErr, DstErr with
      | Some _, _ => ret (h, relayedAckSequencesSrc, relayedAckSequencesDst, false)
      | None, Some _ => ret (h, relayedAckSequencesSrc, relayedAckSequencesDst, false)
      | None, None => ret (h, relayedAckSequencesSrc, relayedAckSequencesDst, true)
      end
  end.

(** ** The channel worker *)

(** One turn of the worker's loop: the environments of its two passes, and
    whether the context is done before the one-second timer fires. *)
Record Round : Type := {
  round_packets : PacketEnv;
  round_acks : AcksEnv;
  round_ctx_done : bool
}.

(** The loop has returned, or it is still turning when the rounds end. *)
Inductive LoopEnd : Type := LoopLeft | LoopGoesOn.

Fixpoint workerLoop (src dst : Chain) (srcChannel : IdentifiedChannel)
    (rounds : list Round) (h : Store)
    (relayedAckSequencesSrc relayedAckSequencesDst : Slice) : Go LoopEnd :=
  match rounds with
  | [] => ret LoopGoesOn
  | r :: rounds' =>
      do ok <- relayUnrelayedPackets (round_packets r);
      if negb ok then ret LoopLeft
      else
        do a <- relayUnrelayedAcks (round_acks r) src dst srcChannel h
                  relayedAckSequencesSrc relayedAckSequencesDst;
        let '(h, relayedAckSequencesSrc, relayedAckSequencesDst, ok) := a in
        if negb ok then ret LoopLeft
        else if round_ctx_done r then ret LoopLeft
        else workerLoop src dst srcChannel rounds' h
               relayedAckSequencesSrc relayedAckSequencesDst
  end.

(** The body of [relayUnrelayedPacketsAndAcks] below its [defer]. *)
Definition workerBody (src dst : Chain) (srcChannel : ActiveChannel)
    (rounds : list Round) : Go LoopEnd :=
  run log InfoLevel "Restart relaying";
  workerLoop src dst (channel srcChannel) rounds ∅ empty_slice empty_slice.







(** ** The settlement query shim *)

Module Settlement.

(** [codes.Code] of gRPC. *)
Inductive Code : Type :=
| OK | Canceled | Unknown | InvalidArgument | DeadlineExceeded | NotFound
| AlreadyExists | PermissionDenied | ResourceExhausted | FailedPrecondition
| Aborted | OutOfRange | Unimplemented | Internal | Unavailable | DataLoss
| Unauthenticated.

Definition Code_eqb (a b : Code) : bool :=
  match a, b with
  | OK, OK | Canceled, Canceled | Unknown, Unknown
  | InvalidArgument, InvalidArgument | DeadlineExceeded, DeadlineExceeded
  | NotFound, NotFound | AlreadyExists, AlreadyExists
  | PermissionDenied, PermissionDenied | ResourceExhausted, ResourceExhausted
  | FailedPrecondition, FailedPrecondition | Aborted, Aborted
  | OutOfRange, OutOfRange | Unimplemented, Unimplemented
  | Internal, Internal | Unavailable, Unavailable | DataLoss, DataLoss
  | Unauthenticated, Unauthenticated => true
  | _, _ => false
  end.

(** An error of the query client: one that carries a gRPC status, or any
    other error. *)
Inductive rpc_error : Type :=
| status_Error (code : Code) (desc : string)
| other_error (e : error).

(** [status.FromError(err)] for a non-nil [err]: the code of the status, and
    whether [err] carried one (an error without status reads as [Unknown]). *)
Definition status_FromError (err : rpc_error) : Code * bool :=
  match err with
  | status_Error code _ => (code, true)
  | other_error _ => (Unknown, false)
  end.

Record StateInfo_t : Type := {
  StartHeight : Z;
  NumBlocks : Z
}.

Record QueryGetLatestFinalizedStateInfoResponse : Type := {
  StateInfo : StateInfo_t
}.

(** [fmt.Errorf("can't get latest-finalized-state info")] *)
Definition cannot_get_info : rpc_error :=
  other_error (errors_New "can't get latest-finalized-state info").

(** [QueryLatestFinalizedHeight], on what [LatestFinalizedStateInfo]
    returned: the response pointer ([None] is [nil]) and the error. The
    height is computed on [uint64] and converted to [int64]. *)
Definition QueryLatestFinalizedHeight
    (res : option QueryGetLatestFinalizedStateInfoResponse) (err : option rpc_error)
    : Z * option rpc_error :=
  match err with
  | Some err =>
      let '(code, ok) := status_FromError err in
      if ok && Code_eqb code NotFound then (-1, None)
      else (-1, Some err)
  | None =>
      match res with
      | None => (-1, Some cannot_get_info)
      | Some res =>
          (Int.int64_of_uint64
             (Int.sub_uint64
                (Int.add_uint64 (StartHeight (StateInfo res)) (NumBlocks (StateInfo res))) 1),
           None)
      end
  end.

(** The query failed with the status code [NotFound]. *)
Definition fails_NotFound (err : option rpc_error) : bool :=
  match err with
  | Some (status_Error NotFound _) => true
  | _ => false
  end.

(** A response with the given start height and number of blocks. *)
Definition finalized (start num : Z) : QueryGetLatestFinalizedStateInfoResponse :=
  {| StateInfo := {| StartHeight := start; NumBlocks := num |} |}.

End Settlement.

(** ** The vocabulary of the statements *)



(** What may follow the sequence query in the trace of a packet pass at the
    heights [srch] and [dsth]: log lines, and [RelayPackets] at those very
    heights. *)
Definition packet_relay_at (srch dsth : Z) (e : Event) : Prop :=
  match e with
  | Log _ _ => True
  | Call_RelayPackets a b _ => a = srch /\ b = dsth
  | _ => False
  end.

(** The same for one direction of an acknowledgement pass:
    [relayAcknowledgements] from [src] to [dst] at the height [srch]. *)
Definition ack_relay_at (src dst : Endpoint) (srch : Z) (e : Event) : Prop :=
  match e with
  | Log _ _ => True
  | Call_relayAcknowledgements s a _ d => s = src /\ d = dst /\ a = srch
  | _ => False
  end.

Definition valid_height (h : Z) : Prop := Int.min_int64 < h <= Int.max_int64.

(** ** Inputs the definitions are evaluated on *)

(** A channel with the given id and state, a filter that allows two ids,
    and the channels of a connection. *)
Definition ch (id : string) (s : types_State) : IdentifiedChannel :=
  {| State := s;
     Counterparty := {| counterparty_PortId := "transfer"; counterparty_ChannelId := "channel-9" |};
     PortId := "transfer";
     ChannelId := id |}.

Definition allow_0_3 : ChannelFilter :=
  {| Rule := "allowlist"; ChannelList := ["ch-0"; "ch-3"] |}.

Definition discovered : list IdentifiedChannel :=
  [ch "ch-0" OPEN; ch "ch-1" OPEN; ch "ch-3" CLOSED; ch "ch-5" OPEN].

(** A provider that answers the discovery with the given channels. *)
Definition discovers (cs : list IdentifiedChannel) : DiscoveryEnv :=
  {| QueryLatestHeight := inr 100; QueryConnectionChannels := fun _ => inr cs |}.

Definition src_chain : Chain := {| ChainID := "hub-1"; ConnectionID := "connection-0" |}.
Definition dst_chain : Chain := {| ChainID := "rollapp-1"; ConnectionID := "connection-4" |}.

Definition pass_all : ChannelFilter := {| Rule := ""; ChannelList := [] |}.

(** A packet pass whose [RelayPackets] fails with the given error, at
    heights 10 and 12, with one unrelayed packet on the source. *)
Definition packets_failing (e : error) : PacketEnv :=
  {| pk_QueryLatestHeights := Returns (inr (10, 12));
     pk_UnrelayedSequences := fun _ _ => Returns {| Src := [1]; Dst := [] |};
     pk_RelayPackets := fun _ _ _ => Returns (Some e) |}.

(** An acknowledgement pass with nothing to relay in either direction. *)
Definition ack_idle : AckEnv :=
  {| ak_unrelayedAcknowledgements := fun _ _ h s => Returns (h, s, [], None);
     ak_relayAcknowledgements := fun _ _ => Returns None |}.

Definition acks_idle : AcksEnv :=
  {| ak_QueryLatestHeights := Returns (inr (10, 12));
     ak_src := ack_idle;
     ak_dst := ack_idle |}.

Definition round_of (p : PacketEnv) (a : AcksEnv) : Round :=
  {| round_packets := p; round_acks := a; round_ctx_done := false |}.

(** One direction in which the sequence query answers with sequences and
    with an error at once. *)
Definition ack_inconsistent : AckEnv :=
  {| ak_unrelayedAcknowledgements :=
       fun _ _ h s => Returns (h, s, [7], Some (errors_New "query failed"));
     ak_relayAcknowledgements := fun _ _ => Returns None |}.

Definition hub_end : Endpoint :=
  {| ep_chain := "hub-1"; ep_channel := "ch-0"; ep_port := "transfer" |}.
Definition rollapp_end : Endpoint :=
  {| ep_chain := "rollapp-1"; ep_channel := "channel-9"; ep_port := "transfer" |}.

(** A cache of two sequences in an array of four cells, and one direction
    whose sequence query appends a sequence to the candidate in place and
    whose relay fails. *)
Definition store_12 : Store := {[ 1%nat := [1; 2; 0; 0] ]}.
Definition slice_12 : Slice :=
  {| slice_array := 1; slice_off := 0; slice_len := 2; slice_cap := 4 |}.


(** An acknowledgement pass whose source direction has one acknowledgement
    to relay and fails to relay it with an application error. *)
Definition ack_relay_fails : AckEnv :=
  {| ak_unrelayedAcknowledgements := fun _ _ h s => Returns (h, s, [5], None);
     ak_relayAcknowledgements := fun _ _ => Returns (Some (errors_New "tx rejected")) |}.


(** A packet pass with nothing to relay. *)
Definition packets_idle : PacketEnv :=
  {| pk_QueryLatestHeights := Returns (inr (10, 12));
     pk_UnrelayedSequences := fun _ _ => Returns {| Src := []; Dst := [] |};
     pk_RelayPackets := fun _ _ _ => Returns None |}.





Definition two_rounds_then_done : list Round :=
  [round_of packets_idle acks_idle;
   {| round_packets := packets_idle; round_acks := acks_idle; round_ctx_done := true |}].

(** ** The entry point *)

(** [processor.ChannelKey]: a channel seen from one side. *)
Record ChannelKey : Type := {
  ChannelID : string;
  PortID : string;
  CounterpartyChannelID : string;
  CounterpartyPortID : string
}.

Definition ProcessorEvents : string := "events".
Definition ProcessorLegacy : string := "legacy".

(** The loop of [StartRelayer] over [filter.ChannelList]: one key per
    channel id on either side, [ChannelKey{ChannelID: ch}] for the source and
    [ChannelKey{CounterpartyChannelID: ch}] for the destination, appended
    to [filterSrc] and [filterDst]. *)
Definition filter_keys (channelList : list string) : list ChannelKey * list ChannelKey :=
  fold_left
    (fun acc ch =>
       let ruleSrc := {| ChannelID := ch; PortID := "";
                         CounterpartyChannelID := ""; CounterpartyPortID := "" |} in
       let ruleDst := {| ChannelID := ""; PortID := "";
                         CounterpartyChannelID := ch; CounterpartyPortID := "" |} in
       (fst acc ++ [ruleSrc], snd acc ++ [ruleDst]))
    channelList ([], []).

(** What [StartRelayer] starts in a goroutine before it returns the error
    channel: the event processor, on a path whose two ends are made with the
    rule of the filter and the keys of their side, or the legacy main loop
    with the filter. *)
Inductive Launch : Type :=
| LaunchEvents (srcRule : string) (filterSrc : list ChannelKey)
               (dstRule : string) (filterDst : list ChannelKey)
| LaunchLegacy (filter : ChannelFilter).

Definition StartRelayer (filter : ChannelFilter) (processorType : string)
    : Outcome Launch :=
  if String.eqb processorType ProcessorEvents then
    let keys := filter_keys (ChannelList filter) in
    Returns (LaunchEvents (Rule filter) (fst keys) (Rule filter) (snd keys))
  else if String.eqb processorType ProcessorLegacy then
    Returns (LaunchLegacy filter)
  else
    Panics (errors_New ("unexpected processor type: " ++ processorType
                        ++ ", supports one of: [" ++ ProcessorEvents ++ ", "
                        ++ ProcessorLegacy ++ "]")%string).

(** ** The settlement provider singleton *)

Module Singleton.

(** The part of a [CosmosProvider] the shim reads: its chain name. *)
Record CosmosProvider : Type := {
  ChainName : string
}.

(** The error of a call that finds the singleton set: it names the chain of
    the first provider and the chain of the one just given. *)
Definition already_initialized (first cp : CosmosProvider) : error :=
  errors_New ("settlement was already initialized as " ++ ChainName first
              ++ ". Cannot be initialized twich as " ++ ChainName cp)%string.

(** [NewSettlementProvider], on the package variable that holds the
    singleton ([None] is [nil]); it returns the variable as it leaves it,
    the provider and the error. The settlement provider wraps the pointer
    it is given, so it is that provider here. *)
Definition NewSettlementProvider (cp : CosmosProvider) (singleton : option CosmosProvider)
    : option CosmosProvider * (option CosmosProvider * option error) :=
  match singleton with
  | Some first => (singleton, (None, Some (already_initialized first cp)))
  | None => (Some cp, (Some cp, None))
  end.

(** Calls of [NewSettlementProvider] one after the other (the lock lets one
    call in at a time), with what each returns. *)
Fixpoint calls (cps : list CosmosProvider) (singleton : option CosmosProvider)
    : option CosmosProvider * list (option CosmosProvider * option error) :=
  match cps with
  | [] => (singleton, [])
  | cp :: cps' =>
      let '(singleton', result) := NewSettlementProvider cp singleton in
      let '(final, results) := calls cps' singleton' in
      (final, result :: results)
  end.

End Singleton.

(** ** More vocabulary of the statements *)

(** The last OPEN channel of a list that has the given id. *)
Definition last_open (id : string) (cs : list IdentifiedChannel)
    : option IdentifiedChannel :=
  last (List.filter (fun c => State_eqb (State c) OPEN && String.eqb (ChannelId c) id) cs).

(** How often an id occurs in a list of ids. *)
Definition occurrences (id : string) (l : list string) : nat :=
  length (List.filter (String.eqb id) l).

(** How many completions of the worker of a channel the events hold. *)
Fixpoint exits (id : string) (events : list SelectEvent) : nat :=
  match events with
  | [] => 0
  | WorkerExited id' _ :: events' =>
      ((if String.eqb id id' then 1 else 0) + exits id events')%nat
  | ContextDone _ :: events' => exits id events'
  end.

(** The flag of a channel in the map: one when a goroutine relays on it. *)
Definition live (id : string) (m : gmap string ActiveChannel) : nat :=
  match m !! id with
  | Some c => if active c then 1 else 0
  | None => 0
  end.

(** What a packet pass returns when its collaborators return: the heights
    query must succeed, and [RelayPackets], when there is something to
    relay, must not fail with a context error nor with the indexing text. *)
Definition packets_verdict (heights : error + Z * Z) (sp : RelaySequences)
    (relayErr : option error) : bool :=
  match heights with
  | inl _ => false
  | inr _ =>
      if Empty sp then true
      else match relayErr with
           | Some e => negb (is_context_error e)
                       && negb (Strings.Contains (Error e) indexing_disabled)
           | None => true
           end
  end.

(** The scheduler as it enters its loop on the OPEN channels of
    [discovered]. *)
Definition discovered_state : Scheduler :=
  {| srcOpenChannels := filterOpenChannels discovered;
     channels_cap := Some (length discovered);
     wg := 0; started := []; errCh := [] |}.

(** A provider whose height query fails with a deadline wrapped once. *)
Definition discovery_times_out : DiscoveryEnv :=
  {| QueryLatestHeight := inl (fmt_Errorf_w "rpc: context deadline exceeded"
                                  context_DeadlineExceeded);
     QueryConnectionChannels := fun _ => inr discovered |}.

(** * Properties *)

(** ** Machine integers *)

Section IntFacts.

Import Int.

Lemma wrap_int64_id z : is_int64 z -> wrap_int64 z = z.
Proof.
  unfold is_int64, wrap_int64, min_int64, max_int64, two64, two63.
  intros H. rewrite Z.mod_small; lia.
Qed.

Lemma wrap_uint64_id z : is_uint64 z -> wrap_uint64 z = z.
Proof.
  unfold is_uint64, wrap_uint64, max_uint64, two64.
  intros H. apply Z.mod_small. lia.
Qed.

Lemma wrap_int64_range z : is_int64 (wrap_int64 z).
Proof.
  unfold is_int64, wrap_int64, min_int64, max_int64, two64, two63.
  pose proof (Z.mod_pos_bound (z + 2 ^ 63) (2 ^ 64) ltac:(lia)). lia.
Qed.

Lemma sub_int64_exact a b : is_int64 (a - b) -> sub_int64 a b = a - b.
Proof. apply wrap_int64_id. Qed.

(** The decrement of a height that is not the least [int64]. *)
Lemma pred_int64 h : min_int64 < h <= max_int64 -> sub_int64 h 1 = h - 1.
Proof.
  intros H. apply sub_int64_exact. unfold is_int64. lia.
Qed.

End IntFacts.

(** ** [strings.Contains] finds the substrings *)

Section StringsFacts.

Import Strings.

Lemma HasPrefix_spec s p : HasPrefix s p = true <-> exists t, s = (p ++ t)%string.
Proof.
  revert s. induction p as [|c p IH]; intros s; simpl.
  - split; [intros _; by exists s | done].
  - destruct s as [|d s]; simpl.
    + split; [intros H; discriminate H | intros [t Ht]; discriminate Ht].
    + rewrite andb_true_iff, Ascii.eqb_eq, IH. split.
      * intros [-> [t ->]]. by exists t.
      * intros [t Ht]. injection Ht as -> ->. split; [done | by exists t].
Qed.

Lemma Contains_spec s sub :
  Contains s sub = true <-> exists a b, s = (a ++ sub ++ b)%string.
Proof.
  induction s as [|c s IH]; simpl.
  - rewrite orb_false_r, HasPrefix_spec. split.
    + intros [t Ht]. by exists EmptyString, t.
    + intros [a [b Hab]]. destruct a; simpl in Hab; [by exists b | discriminate].
  - rewrite orb_true_iff, HasPrefix_spec, IH. split.
    + intros [[t Ht] | [a [b Hab]]].
      * by exists EmptyString, t.
      * exists (String c a), b. simpl. by rewrite Hab.
    + intros [a [b Hab]]. destruct a as [|d a]; simpl in Hab.
      * left. by exists b.
      * right. injection Hab as -> ->. by exists a, b.
Qed.

End StringsFacts.

(** ** The channel filter *)

Section FilterFacts.

Variables allowList denyList : string.

Lemma inList_elem_of (l : list string) (channelID : string) :
  inList l channelID = true <-> channelID ∈ l.
Proof.
  induction l as [|c l IH]; simpl.
  - split; [intros H; discriminate H | intros H; inversion H].
  - destruct (String.eqb_spec c channelID) as [-> | Hne].
    + split; [intros _; left | done].
    + rewrite IH. split; [intros H; by right |].
      intros H. inversion H; subst; [congruence | done].
Qed.

Lemma InChannelList_elem_of (F : ChannelFilter) (channelID : string) :
  InChannelList F channelID = true <-> channelID ∈ ChannelList F.
Proof. apply inList_elem_of. Qed.

(** A loop that appends the elements it keeps computes a filter, in the
    order of the input. *)
Lemma append_loop_keep {A} (P : A -> Prop) `{!forall x, Decision (P x)}
    (keep : A -> bool) (l acc : list A) :
  (forall x, keep x = true <-> P x) ->
  fold_left (fun acc c => if keep c then acc ++ [c] else acc) l acc
  = acc ++ filter P l.
Proof.
  intros Hkeep. revert acc. induction l as [|c l IH]; intros acc; simpl.
  - by rewrite app_nil_r.
  - rewrite IH. destruct (keep c) eqn:Hc.
    + rewrite filter_cons_True by (by apply Hkeep).
      by rewrite <- app_assoc.
    + rewrite filter_cons_False; [done |].
      intros HP. apply Hkeep in HP. congruence.
Qed.

Lemma append_loop_skip {A} (P : A -> Prop) `{!forall x, Decision (P x)}
    (skip : A -> bool) (l acc : list A) :
  (forall x, skip x = true <-> P x) ->
  fold_left (fun acc c => if skip c then acc else acc ++ [c]) l acc
  = acc ++ filter (fun x => ~ P x) l.
Proof.
  intros Hskip. revert acc. induction l as [|c l IH]; intros acc; simpl.
  - by rewrite app_nil_r.
  - rewrite IH. destruct (skip c) eqn:Hc.
    + rewrite filter_cons_False; [done |].
      intros HP. apply HP. by apply Hskip.
    + rewrite filter_cons_True.
      * by rewrite <- app_assoc.
      * intros HP. apply Hskip in HP. congruence.
Qed.

Lemma applyChannelFilterRule_allow (F : ChannelFilter) (C : list IdentifiedChannel) :
  Rule F = allowList ->
  applyChannelFilterRule allowList denyList F C
  = filter (fun c => ChannelId c ∈ ChannelList F) C.
Proof.
  intros HR. unfold applyChannelFilterRule.
  rewrite HR, String.eqb_refl.
  rewrite (append_loop_keep (fun c => ChannelId c ∈ ChannelList F)); [done |].
  intros c. apply InChannelList_elem_of.
Qed.

Lemma applyChannelFilterRule_deny (F : ChannelFilter) (C : list IdentifiedChannel) :
  allowList <> denyList ->
  Rule F = denyList ->
  applyChannelFilterRule allowList denyList F C
  = filter (fun c => ChannelId c ∉ ChannelList F) C.
Proof.
  intros Hne HR. unfold applyChannelFilterRule.
  rewrite HR, String.eqb_refl.
  destruct (String.eqb_spec denyList allowList) as [Heq | _]; [congruence |].
  rewrite (append_loop_skip (fun c => ChannelId c ∈ ChannelList F)); [done |].
  intros c. apply InChannelList_elem_of.
Qed.

Lemma applyChannelFilterRule_none (F : ChannelFilter) (C : list IdentifiedChannel) :
  Rule F <> allowList -> Rule F <> denyList ->
  applyChannelFilterRule allowList denyList F C = C.
Proof.
  intros Ha Hd. unfold applyChannelFilterRule.
  destruct (String.eqb_spec (Rule F) allowList); [done |].
  destruct (String.eqb_spec (Rule F) denyList); done.
Qed.

(** Whatever the rule, the result is a subsequence of the input. *)
Lemma applyChannelFilterRule_sublist (F : ChannelFilter) (C : list IdentifiedChannel) :
  applyChannelFilterRule allowList denyList F C `sublist_of` C.
Proof.
  unfold applyChannelFilterRule.
  destruct (String.eqb (Rule F) allowList).
  - rewrite (append_loop_keep (fun c => ChannelId c ∈ ChannelList F)).
    + apply sublist_filter.
    + intros c. apply InChannelList_elem_of.
  - destruct (String.eqb (Rule F) denyList); [| done].
    rewrite (append_loop_skip (fun c => ChannelId c ∈ ChannelList F)).
    + apply sublist_filter.
    + intros c. apply InChannelList_elem_of.
Qed.


End FilterFacts.

(** C6. For every filter [F] and channels [C], [applyChannelFilterRule]
    returns exactly the channels of [C] whose id is in the list of [F] under
    the allow rule, exactly those whose id is not in it under the deny rule,
    and [C] itself under any other rule; the result is a subsequence of [C],
    so the order of [C] is kept; it depends on [F] and [C] alone. With an
    empty list, allow gives nothing and deny gives [C]. *)
Theorem applyChannelFilterRule_spec (allowList denyList : string)
    (F : ChannelFilter) (C : list IdentifiedChannel) :
  allowList <> denyList ->
  (Rule F = allowList ->
     applyChannelFilterRule allowList denyList F C
     = filter (fun c => ChannelId c ∈ ChannelList F) C) /\
  (Rule F = denyList ->
     applyChannelFilterRule allowList denyList F C
     = filter (fun c => ChannelId c ∉ ChannelList F) C) /\
  (Rule F <> allowList -> Rule F <> denyList ->
     applyChannelFilterRule allowList denyList F C = C) /\
  applyChannelFilterRule allowList denyList F C `sublist_of` C /\
  (ChannelList F = [] ->
     (Rule F = allowList -> applyChannelFilterRule allowList denyList F C = []) /\
     (Rule F = denyList -> applyChannelFilterRule allowList denyList F C = C)).
Proof.
  intros Hne. split; [| split; [| split; [| split]]].
  - apply applyChannelFilterRule_allow.
  - by apply applyChannelFilterRule_deny.
  - apply applyChannelFilterRule_none.
  - apply applyChannelFilterRule_sublist.
  - intros Hnil. split; intros HR.
    + rewrite (applyChannelFilterRule_allow _ _ _ _ HR), Hnil.
      induction C as [|c C IH]; [done |].
      rewrite filter_cons_False; [done |]. apply not_elem_of_nil.
    + rewrite (applyChannelFilterRule_deny _ _ _ _ Hne HR), Hnil.
      induction C as [|c C IH]; [done |].
      rewrite filter_cons_True by apply not_elem_of_nil. by rewrite IH.
Qed.

Lemma applyChannelFilterRule_spec_witness :
  "allowlist" <> "denylist" /\
  applyChannelFilterRule "allowlist" "denylist" allow_0_3 discovered
  = [ch "ch-0" OPEN; ch "ch-3" CLOSED].
Proof.
  split; [discriminate |].
  destruct (applyChannelFilterRule_spec "allowlist" "denylist" allow_0_3 discovered)
    as [Hallow _]; [discriminate |].
  rewrite Hallow; reflexivity.
Defined.

(** ** The legacy scheduler *)

Section SchedulerFacts.

Variables allowList denyList : string.

Lemma schedulerLoop_empty (events : list SelectEvent) (st : Scheduler) :
  srcOpenChannels st = ∅ ->
  schedulerLoop events st = (send_error no_open_channels st, LoopReturned).
Proof.
  intros Hm. destruct events; simpl; by rewrite Hm, map_size_empty.
Qed.







End SchedulerFacts.


(** The scheduler never adds a channel to its map. *)
Lemma schedulerLoop_dom (events : list SelectEvent) (st : Scheduler) :
  dom (srcOpenChannels (fst (schedulerLoop events st))) ⊆ dom (srcOpenChannels st).
Proof.
  revert st. induction events as [|ev events IH]; intros st; simpl.
  - destruct (size _ =? 0)%nat; simpl; [done |]. by rewrite dom_fmap_L.
  - destruct (size _ =? 0)%nat; simpl; [done |].
    destruct ev as [id [err | state] | ctxErr]; simpl.
    + by rewrite dom_alter_L, dom_fmap_L.
    + destruct (State_eqb state OPEN).
      * etrans; [apply IH |]. simpl. by rewrite dom_alter_L, dom_fmap_L.
      * etrans; [apply IH |]. simpl.
        rewrite dom_delete_L, dom_alter_L, dom_fmap_L.
        by apply subseteq_difference_l.
    + by rewrite dom_fmap_L.
Qed.


(** C8. Whenever the map of open channels is empty at the top of the main
    loop, the scheduler sends "there are no open channels to relay on" on
    the failure channel and returns, starting no worker; so it does at
    startup, when discovery, the filter and the selection of the OPEN
    channels leave no channel. *)
Theorem no_open_channels_terminal (allowList denyList : string) :
  (forall (events : list SelectEvent) (st : Scheduler),
     srcOpenChannels st = ∅ ->
     snd (schedulerLoop events st) = LoopReturned /\
     errCh (fst (schedulerLoop events st)) = errCh st ++ [no_open_channels] /\
     started (fst (schedulerLoop events st)) = started st /\
     wg (fst (schedulerLoop events st)) = wg st) /\
  (forall (src : Chain) (env : DiscoveryEnv) (filter : ChannelFilter)
          (events : list SelectEvent) (cs : list IdentifiedChannel),
     queryChannelsOnConnection env = inr cs ->
     filterOpenChannels (applyChannelFilterRule allowList denyList filter cs) = ∅ ->
     snd (relayerMainLoop allowList denyList src env filter events) = LoopReturned /\
     errCh (fst (relayerMainLoop allowList denyList src env filter events))
     = [no_open_channels] /\
     started (fst (relayerMainLoop allowList denyList src env filter events)) = []).
Proof.
  split.
  - intros events st Hm. by rewrite (schedulerLoop_empty events st Hm).
  - intros src env filter events cs Hq Hm.
    unfold relayerMainLoop. rewrite Hq. simpl.
    by rewrite schedulerLoop_empty.
Qed.

Lemma no_open_channels_terminal_witness :
  filterOpenChannels
    (applyChannelFilterRule "allowlist" "denylist" allow_0_3 [ch "ch-3" CLOSED; ch "ch-5" OPEN])
  = ∅ /\
  errCh (fst (relayerMainLoop "allowlist" "denylist" src_chain
                (discovers [ch "ch-3" CLOSED; ch "ch-5" OPEN]) allow_0_3
                [WorkerExited "ch-3" (inr OPEN)]))
  = [errors_New "there are no open channels to relay on"].
Proof.
  split; [reflexivity |].
  apply (proj2 (no_open_channels_terminal "allowlist" "denylist")
           src_chain (discovers [ch "ch-3" CLOSED; ch "ch-5" OPEN]) allow_0_3
           [WorkerExited "ch-3" (inr OPEN)] [ch "ch-3" CLOSED; ch "ch-5" OPEN]);
    reflexivity.
Defined.




(** ** The packet pass *)

Lemma workerLoop_packets_false (src dst : Chain) (srcChannel : IdentifiedChannel)
    (r : Round) (rounds : list Round) (h : Store) (s1 s2 : Slice) :
  outcome_of (relayUnrelayedPackets (round_packets r)) = Returns false ->
  outcome_of (workerLoop src dst srcChannel (r :: rounds) h s1 s2) = Returns LoopLeft.
Proof.
  simpl. destruct (relayUnrelayedPackets (round_packets r)) as [t o].
  simpl. intros ->. reflexivity.
Qed.

(** C1, as the code has it. When [RelayPackets] fails with an error that is
    no context error, the pass reports failure exactly when the message of
    the error contains "Internal error: transaction indexing is disabled":
    it then logs the hint for the operator as its last line and returns
    false, and the worker leaves its loop; without that text in the message
    the pass returns true. *)
Theorem indexing_disabled_fails_pass (env : PacketEnv) (srch dsth : Z)
    (sp : RelaySequences) (e : error) :
  pk_QueryLatestHeights env = Returns (inr (srch, dsth)) ->
  pk_UnrelayedSequences env (Int.sub_int64 srch 1) (Int.sub_int64 dsth 1) = Returns sp ->
  Empty sp = false ->
  pk_RelayPackets env srch dsth sp = Returns (Some e) ->
  is_context_error e = false ->
  outcome_of (relayUnrelayedPackets env)
  = Returns (negb (Strings.Contains (Error e) indexing_disabled)) /\
  (Strings.Contains (Error e) indexing_disabled = true ->
   last (trace_of (relayUnrelayedPackets env))
   = Some (Log WarnLevel "Remote server needs to enable transaction indexing") /\
   forall src dst srcChannel acks done rounds h s1 s2,
     outcome_of
       (workerLoop src dst srcChannel
          ({| round_packets := env; round_acks := acks; round_ctx_done := done |} :: rounds)
          h s1 s2)
     = Returns LoopLeft).
Proof.
  intros Hh Hs He Hr Hc.
  assert (Hrun : relayUnrelayedPackets env
    = ([Call_QueryLatestHeights;
        Call_UnrelayedSequences (Int.sub_int64 srch 1) (Int.sub_int64 dsth 1)]
       ++ (if (0 <? length (Src sp))%nat
           then [Log InfoLevel "Unrelayed source packets"] else [])
       ++ (if (0 <? length (Dst sp))%nat
           then [Log InfoLevel "Unrelayed destination packets"] else [])
       ++ [Call_RelayPackets srch dsth sp;
           Log WarnLevel
             (if Strings.Contains (Error e) indexing_disabled
              then "Remote server needs to enable transaction indexing"
              else "Relay packets error")],
       Returns (negb (Strings.Contains (Error e) indexing_disabled)))).
  { unfold relayUnrelayedPackets, call, bind, log, emit, ret.
    rewrite Hh, Hs, He, Hr, Hc.
    destruct (0 <? length (Src sp))%nat, (0 <? length (Dst sp))%nat,
      (Strings.Contains (Error e) indexing_disabled); reflexivity. }
  split; [by rewrite Hrun |].
  intros Hin. split.
  - rewrite Hrun, Hin. unfold trace_of. simpl.
    destruct (0 <? length (Src sp))%nat, (0 <? length (Dst sp))%nat; reflexivity.
  - intros. apply workerLoop_packets_false. simpl.
    rewrite Hrun, Hin. reflexivity.
Qed.

Lemma indexing_disabled_fails_pass_witness :
  outcome_of
    (relayUnrelayedPackets
       (packets_failing (errors_New "Internal error: transaction indexing is disabled")))
  = Returns false.
Proof.
  exact (proj1 (indexing_disabled_fails_pass
                  (packets_failing
                     (errors_New "Internal error: transaction indexing is disabled"))
                  10 12 {| Src := [1]; Dst := [] |}
                  (errors_New "Internal error: transaction indexing is disabled")
                  eq_refl eq_refl eq_refl eq_refl eq_refl)).
Defined.

(** C1, as stated, fails: the message of the error contains "transaction
    indexing is disabled", the pass logs the hint and returns false, and
    the worker, given two rounds, leaves its loop in the first. *)
Lemma indexing_disabled_counterexample :
  Strings.Contains
    (Error (errors_New "Internal error: transaction indexing is disabled"))
    "transaction indexing is disabled" = true /\
  relayUnrelayedPackets
    (packets_failing (errors_New "Internal error: transaction indexing is disabled"))
  = ([Call_QueryLatestHeights;
      Call_UnrelayedSequences 9 11;
      Log InfoLevel "Unrelayed source packets";
      Call_RelayPackets 10 12 {| Src := [1]; Dst := [] |};
      Log WarnLevel "Remote server needs to enable transaction indexing"],
     Returns false) /\
  workerBody src_chain dst_chain {| channel := ch "ch-0" OPEN; active := true |}
    [round_of
       (packets_failing (errors_New "Internal error: transaction indexing is disabled"))
       acks_idle;
     round_of
       (packets_failing (errors_New "Internal error: transaction indexing is disabled"))
       acks_idle]
  = ([Log InfoLevel "Restart relaying";
      Call_QueryLatestHeights;
      Call_UnrelayedSequences 9 11;
      Log InfoLevel "Unrelayed source packets";
      Call_RelayPackets 10 12 {| Src := [1]; Dst := [] |};
      Log WarnLevel "Remote server needs to enable transaction indexing"],
     Returns LoopLeft).
Proof. repeat split. Qed.

(** An error whose message holds the shorter text only is an ordinary
    application error: the pass returns true. *)
Example indexing_disabled_short_text :
  outcome_of (relayUnrelayedPackets
                (packets_failing (errors_New "transaction indexing is disabled")))
  = Returns true.
Proof. reflexivity. Qed.

(** ** The acknowledgement helper *)

Ltac go_unfold :=
  unfold relayUnrelayedAcksHelper, relayUnrelayedPackets, relayUnrelayedAcks,
    goroutine, call, bind, log, emit, ret, panic, outcome_of, trace_of.

Section HelperFacts.

Variable env : AckEnv.
Variables src dst : Endpoint.
Variables srch dsth : Z.
Variable h : Store.
Variable relayedAckSequences : Slice.

Let adjustedSrch := Int.sub_int64 srch 1.
Let adjustedDsth := Int.sub_int64 dsth 1.

Variables (h1 : Store) (candidate : Slice) (sequences : list Z) (err : option error).

Hypothesis unrelayed_returns :
  ak_unrelayedAcknowledgements env adjustedSrch adjustedDsth h relayedAckSequences
  = Returns (h1, candidate, sequences, err).

Let first_call : Event :=
  Call_unrelayedAcknowledgements src adjustedSrch dst adjustedDsth.

Lemma helper_nothing_to_relay :
  sequences = [] ->
  relayUnrelayedAcksHelper env src srch dst dsth h relayedAckSequences
  = match err with
    | Some e =>
        ([first_call; Log DebugLevel "No acknowledgements in queue";
          Log WarnLevel "unrelayedAcknowledgements failed"],
         Returns (h1, relayedAckSequences, Some e))
    | None =>
        ([first_call; Log DebugLevel "No acknowledgements in queue"],
         Returns (h1, candidate, None))
    end.
Proof.
  intros ->. go_unfold. fold adjustedSrch adjustedDsth.
  rewrite unrelayed_returns. simpl. by destruct err.
Qed.

Lemma helper_inconsistent e :
  sequences <> [] -> err = Some e ->
  relayUnrelayedAcksHelper env src srch dst dsth h relayedAckSequences
  = ([first_call;
      Log ErrorLevel "unrelayedAcknowledgements returned: len(sequences)>0, but err != nil"],
     Panics e).
Proof.
  intros Hs ->. go_unfold. fold adjustedSrch adjustedDsth.
  rewrite unrelayed_returns. destruct sequences; [done | reflexivity].
Qed.

Lemma helper_relays (answer : Outcome (option error)) :
  sequences <> [] -> err = None ->
  ak_relayAcknowledgements env srch sequences = answer ->
  relayUnrelayedAcksHelper env src srch dst dsth h relayedAckSequences
  = match answer with
    | Returns None =>
        ([first_call; Call_relayAcknowledgements src srch sequences dst],
         Returns (h1, candidate, None))
    | Returns (Some e) =>
        if is_context_error e then
          ([first_call; Call_relayAcknowledgements src srch sequences dst;
            Log WarnLevel
              "Context finished while waiting for RelayAcknowledgements to complete"],
           Returns (h1, relayedAckSequences, Some e))
        else
          ([first_call; Call_relayAcknowledgements src srch sequences dst;
            Log WarnLevel "Relay acknowledgements error";
            Log WarnLevel "unrelayedAcknowledgements failed"],
           Returns (h1, relayedAckSequences, Some e))
    | Panics v =>
        ([first_call; Call_relayAcknowledgements src srch sequences dst], Panics v)
    | Crashes v =>
        ([first_call; Call_relayAcknowledgements src srch sequences dst], Crashes v)
    | Blocks =>
        ([first_call; Call_relayAcknowledgements src srch sequences dst], Blocks)
    end.
Proof.
  intros Hs -> Ha. go_unfold. fold adjustedSrch adjustedDsth.
  rewrite unrelayed_returns. destruct sequences as [|x l]; [done |]. simpl.
  rewrite Ha. destruct answer as [[e|]| | |]; try reflexivity.
  by destruct (is_context_error e).
Qed.

End HelperFacts.

(** C4. When its two collaborators return, the helper panics if and only if
    [unrelayedAcknowledgements] returned a non-empty list of sequences
    together with a non-nil error, and the value of the panic is that
    error; when the list is empty or the error is nil the helper returns. *)
Theorem helper_panics_iff (env : AckEnv) (src dst : Endpoint) (srch dsth : Z)
    (h : Store) (relayedAckSequences : Slice)
    (h1 : Store) (candidate : Slice) (sequences : list Z) (err relayErr : option error) :
  ak_unrelayedAcknowledgements env (Int.sub_int64 srch 1) (Int.sub_int64 dsth 1)
    h relayedAckSequences = Returns (h1, candidate, sequences, err) ->
  ak_relayAcknowledgements env srch sequences = Returns relayErr ->
  ((exists v, outcome_of (relayUnrelayedAcksHelper env src srch dst dsth h relayedAckSequences)
              = Panics v)
   <-> sequences <> [] /\ err <> None) /\
  (forall e, sequences <> [] -> err = Some e ->
     outcome_of (relayUnrelayedAcksHelper env src srch dst dsth h relayedAckSequences)
     = Panics e) /\
  (sequences = [] \/ err = None ->
   exists r, outcome_of (relayUnrelayedAcksHelper env src srch dst dsth h relayedAckSequences)
             = Returns r).
Proof.
  intros Hu Hr.
  assert (Hpanic : forall e, sequences <> [] -> err = Some e ->
    outcome_of (relayUnrelayedAcksHelper env src srch dst dsth h relayedAckSequences)
    = Panics e).
  { intros e Hs He. by rewrite (helper_inconsistent _ _ _ _ _ _ _ _ _ _ _ Hu e Hs He). }
  assert (Hreturn : sequences = [] \/ err = None ->
    exists r, outcome_of (relayUnrelayedAcksHelper env src srch dst dsth h relayedAckSequences)
              = Returns r).
  { intros Hcase. destruct sequences as [|x l] eqn:Hs.
    - rewrite (helper_nothing_to_relay _ _ _ _ _ _ _ _ _ _ _ Hu eq_refl).
      destruct err; eauto.
    - destruct Hcase as [Hnil | ->]; [discriminate Hnil |].
      rewrite (helper_relays _ _ _ _ _ _ _ _ _ _ _ Hu (Returns relayErr)); [| done | done | done].
      destruct relayErr as [e|]; [destruct (is_context_error e) |]; eauto. }
  split; [| split; assumption].
  split.
  - intros [v Hv]. split.
    + intros ->. destruct Hreturn as [r Hr']; [by left |]. congruence.
    + intros ->. destruct Hreturn as [r Hr']; [by right |]. congruence.
  - intros [Hs He]. destruct err as [e|]; [| done]. exists e. by apply Hpanic.
Qed.

Lemma helper_panics_iff_witness :
  exists v,
    outcome_of (relayUnrelayedAcksHelper ack_inconsistent hub_end 10 rollapp_end 12
                  ∅ empty_slice)
    = Panics v.
Proof.
  apply (proj1 (helper_panics_iff ack_inconsistent hub_end rollapp_end 10 12
                  ∅ empty_slice ∅ empty_slice [7] (Some (errors_New "query failed")) None
                  eq_refl eq_refl)).
  split; discriminate.
Defined.



(** ** The acknowledgement pass *)







(** ** The channel worker *)





(** ** The heights the collaborators are called with *)

Lemma packet_pass_calls (env : PacketEnv) (srch dsth : Z) :
  pk_QueryLatestHeights env = Returns (inr (srch, dsth)) ->
  exists rest,
    trace_of (relayUnrelayedPackets env)
    = [Call_QueryLatestHeights;
       Call_UnrelayedSequences (Int.sub_int64 srch 1) (Int.sub_int64 dsth 1)] ++ rest /\
    Forall (packet_relay_at srch dsth) rest.
Proof.
  intros Hh. go_unfold. rewrite Hh.
  destruct (pk_UnrelayedSequences env _ _) as [sp | | |]; simpl;
    try (by eexists; split; [reflexivity | constructor]).
  destruct (Empty sp); simpl.
  { eexists; split; [reflexivity |]. by repeat constructor. }
  destruct (0 <? length (Src sp))%nat, (0 <? length (Dst sp))%nat; simpl;
    (destruct (pk_RelayPackets env srch dsth sp) as [[e|]| | |]; simpl;
     [destruct (is_context_error e); [| destruct (Strings.Contains _ _)] | ..]);
    simpl; (eexists; split; [reflexivity |]); by repeat constructor.
Qed.

Lemma helper_calls (env : AckEnv) (src dst : Endpoint) (srch dsth : Z)
    (h : Store) (s : Slice) :
  exists rest,
    trace_of (relayUnrelayedAcksHelper env src srch dst dsth h s)
    = Call_unrelayedAcknowledgements src (Int.sub_int64 srch 1) dst (Int.sub_int64 dsth 1)
      :: rest /\
    Forall (ack_relay_at src dst srch) rest.
Proof.
  go_unfold.
  destruct (ak_unrelayedAcknowledgements env _ _ h s)
    as [[[[h1 c] [|x l]] [e|]]| | |]; simpl;
    try (by eexists; split; [reflexivity | repeat constructor]).
  destruct (ak_relayAcknowledgements env srch (x :: l)) as [[e|]| | |]; simpl;
    [destruct (is_context_error e) | ..]; simpl;
    (eexists; split; [reflexivity |]); by repeat constructor.
Qed.

(** The acknowledgement pass runs the helper of the source direction at
    [(srch, dsth)] and, when that one returns, the helper of the destination
    direction at [(dsth, srch)]. *)
Lemma relayUnrelayedAcks_trace (env : AcksEnv) (src dst : Chain)
    (srcChannel : IdentifiedChannel) (h : Store) (sS sD : Slice) (srch dsth : Z) :
  ak_QueryLatestHeights env = Returns (inr (srch, dsth)) ->
  trace_of (relayUnrelayedAcks env src dst srcChannel h sS sD)
  = Call_QueryLatestHeights
    :: trace_of (relayUnrelayedAcksHelper (ak_src env) (src_end src srcChannel) srch
                   (dst_end dst srcChannel) dsth h sS)
    ++ match outcome_of (relayUnrelayedAcksHelper (ak_src env) (src_end src srcChannel) srch
                           (dst_end dst srcChannel) dsth h sS) with
       | Returns (h1, _, _) =>
           trace_of (relayUnrelayedAcksHelper (ak_dst env) (dst_end dst srcChannel) dsth
                       (src_end src srcChannel) srch h1 sD)
       | _ => []
       end.
Proof.
  intros Hh. unfold relayUnrelayedAcks, call, bind, goroutine, ret, trace_of, outcome_of.
  rewrite Hh. simpl.
  destruct (relayUnrelayedAcksHelper (ak_src env) _ _ _ _ h sS)
    as [t1 [[[h1 s1] e1]| | |]]; simpl; try by rewrite app_nil_r.
  destruct (relayUnrelayedAcksHelper (ak_dst env) _ _ _ _ h1 sD)
    as [t2 [[[h2 s2] e2]| | |]]; simpl; try done.
  destruct e1, e2; simpl; by rewrite app_nil_r.
Qed.

(** C7. With the latest heights [(srch, dsth)] queried, the packet pass calls
    [UnrelayedSequences] at [srch - 1] and [dsth - 1] and, after it,
    [RelayPackets] at [srch] and [dsth] only. The helper of an
    acknowledgement direction calls [unrelayedAcknowledgements] at
    [srch - 1] and [dsth - 1] and, after it, [relayAcknowledgements] at its
    [srch] only; the acknowledgement pass runs it at [(srch, dsth)] for the
    source direction and at [(dsth, srch)] for the destination direction. *)
Theorem heights_decremented_for_diff :
  (forall (env : PacketEnv) (srch dsth : Z),
     valid_height srch -> valid_height dsth ->
     pk_QueryLatestHeights env = Returns (inr (srch, dsth)) ->
     exists rest,
       trace_of (relayUnrelayedPackets env)
       = [Call_QueryLatestHeights; Call_UnrelayedSequences (srch - 1) (dsth - 1)] ++ rest /\
       Forall (packet_relay_at srch dsth) rest) /\
  (forall (env : AckEnv) (src dst : Endpoint) (srch dsth : Z) (h : Store) (s : Slice),
     valid_height srch -> valid_height dsth ->
     exists rest,
       trace_of (relayUnrelayedAcksHelper env src srch dst dsth h s)
       = Call_unrelayedAcknowledgements src (srch - 1) dst (dsth - 1) :: rest /\
       Forall (ack_relay_at src dst srch) rest) /\
  (forall (env : AcksEnv) (src dst : Chain) (srcChannel : IdentifiedChannel)
          (h : Store) (sS sD : Slice) (srch dsth : Z),
     ak_QueryLatestHeights env = Returns (inr (srch, dsth)) ->
     trace_of (relayUnrelayedAcks env src dst srcChannel h sS sD)
     = Call_QueryLatestHeights
       :: trace_of (relayUnrelayedAcksHelper (ak_src env) (src_end src srcChannel) srch
                      (dst_end dst srcChannel) dsth h sS)
       ++ match outcome_of (relayUnrelayedAcksHelper (ak_src env) (src_end src srcChannel)
                              srch (dst_end dst srcChannel) dsth h sS) with
          | Returns (h1, _, _) =>
              trace_of (relayUnrelayedAcksHelper (ak_dst env) (dst_end dst srcChannel) dsth
                          (src_end src srcChannel) srch h1 sD)
          | _ => []
          end).
Proof.
  split; [| split].
  - intros env srch dsth Hs Hd Hh.
    rewrite <- (pred_int64 srch Hs), <- (pred_int64 dsth Hd).
    by apply packet_pass_calls.
  - intros env src dst srch dsth h s Hs Hd.
    rewrite <- (pred_int64 srch Hs), <- (pred_int64 dsth Hd).
    apply helper_calls.
  - apply relayUnrelayedAcks_trace.
Qed.

Lemma heights_decremented_for_diff_witness :
  (exists rest,
     trace_of (relayUnrelayedPackets (packets_failing (errors_New "tx rejected")))
     = [Call_QueryLatestHeights; Call_UnrelayedSequences (10 - 1) (12 - 1)] ++ rest /\
     Forall (packet_relay_at 10 12) rest) /\
  (exists rest,
     trace_of (relayUnrelayedAcksHelper ack_relay_fails rollapp_end 12 hub_end 10
                 ∅ empty_slice)
     = Call_unrelayedAcknowledgements rollapp_end (12 - 1) hub_end (10 - 1) :: rest /\
     Forall (ack_relay_at rollapp_end hub_end 12) rest).
Proof.
  assert (H10 : valid_height 10)
    by (unfold valid_height, Int.min_int64, Int.max_int64, Int.two63; lia).
  assert (H12 : valid_height 12)
    by (unfold valid_height, Int.min_int64, Int.max_int64, Int.two63; lia).
  split.
  - apply (proj1 heights_decremented_for_diff
             (packets_failing (errors_New "tx rejected")) 10 12 H10 H12 eq_refl).
  - apply (proj1 (proj2 heights_decremented_for_diff)
             ack_relay_fails rollapp_end hub_end 12 10 ∅ empty_slice H12 H10).
Defined.

(** ** The settlement query shim *)

Section SettlementFacts.

Import Settlement.

Lemma fails_NotFound_status (err : rpc_error) :
  fails_NotFound (Some err) = (snd (status_FromError err)
                               && Code_eqb (fst (status_FromError err)) NotFound).
Proof. destruct err as [[] desc | e]; reflexivity. Qed.

(** C10, as the code has it. A query that fails with the status code
    NotFound gives [(-1, nil)]; any other error of the query is returned
    with [-1]; a nil response without error gives [-1] and an error of the
    shim's own; a response gives [StartHeight + NumBlocks - 1] computed on
    [uint64] and converted to [int64], with a nil error. That height is the
    mathematical [StartHeight + NumBlocks - 1], and so is not [-1], when
    [1 <= StartHeight + NumBlocks <= 2^63]. *)
Theorem QueryLatestFinalizedHeight_spec :
  (forall res err, fails_NotFound err = true ->
     QueryLatestFinalizedHeight res err = (-1, None)) /\
  (forall res e, fails_NotFound (Some e) = false ->
     QueryLatestFinalizedHeight res (Some e) = (-1, Some e)) /\
  QueryLatestFinalizedHeight None None = (-1, Some cannot_get_info) /\
  (forall r,
     QueryLatestFinalizedHeight (Some r) None
     = (Int.int64_of_uint64
          (Int.sub_uint64
             (Int.add_uint64 (StartHeight (StateInfo r)) (NumBlocks (StateInfo r))) 1),
        None)) /\
  (forall r,
     Int.is_uint64 (StartHeight (StateInfo r)) ->
     Int.is_uint64 (NumBlocks (StateInfo r)) ->
     1 <= StartHeight (StateInfo r) + NumBlocks (StateInfo r) <= Int.two63 ->
     QueryLatestFinalizedHeight (Some r) None
     = (StartHeight (StateInfo r) + NumBlocks (StateInfo r) - 1, None) /\
     0 <= fst (QueryLatestFinalizedHeight (Some r) None)).
Proof.
  split; [| split; [| split; [| split]]].
  - intros res [[[] desc | e] |] H; try discriminate H. reflexivity.
  - intros res e H. unfold QueryLatestFinalizedHeight.
    rewrite fails_NotFound_status in H.
    destruct (status_FromError e) as [code ok]. simpl in H. by rewrite H.
  - reflexivity.
  - reflexivity.
  - intros r Hs Hn Hsum.
    assert (Heq : Int.int64_of_uint64
                    (Int.sub_uint64
                       (Int.add_uint64 (StartHeight (StateInfo r))
                          (NumBlocks (StateInfo r))) 1)
                  = StartHeight (StateInfo r) + NumBlocks (StateInfo r) - 1).
    { unfold Int.int64_of_uint64, Int.sub_uint64, Int.add_uint64.
      unfold Int.is_uint64, Int.max_uint64, Int.two64, Int.two63 in *.
      rewrite (wrap_uint64_id (_ + _))
        by (unfold Int.is_uint64, Int.max_uint64, Int.two64; lia).
      rewrite (wrap_uint64_id (_ - 1))
        by (unfold Int.is_uint64, Int.max_uint64, Int.two64; lia).
      apply wrap_int64_id.
      unfold Int.is_int64, Int.min_int64, Int.max_int64, Int.two63. lia. }
    unfold QueryLatestFinalizedHeight. rewrite Heq. simpl. split; [done | lia].
Qed.

Lemma QueryLatestFinalizedHeight_spec_witness :
  QueryLatestFinalizedHeight (Some (finalized 101 50)) None = (150, None) /\
  0 <= fst (QueryLatestFinalizedHeight (Some (finalized 101 50)) None).
Proof.
  apply (proj2 (proj2 (proj2 (proj2 QueryLatestFinalizedHeight_spec))) (finalized 101 50));
    unfold Int.is_uint64, Int.max_uint64, Int.two64, Int.two63; simpl; lia.
Defined.

(** C10, as stated, fails: the query succeeds with a state info whose start
    height and number of blocks are zero; the height wraps around to [-1],
    and the result is the one of a NotFound failure. *)
Lemma QueryLatestFinalizedHeight_counterexample :
  fails_NotFound None = false /\
  QueryLatestFinalizedHeight (Some (finalized 0 0)) None = (-1, None) /\
  QueryLatestFinalizedHeight None (Some (status_Error NotFound "not found")) = (-1, None).
Proof. repeat split. Qed.

End SettlementFacts.

(** * Further properties of the control core *)

(** ** The map of open channels *)

Lemma last_open_cons (id : string) (x : IdentifiedChannel) (cs : list IdentifiedChannel) :
  last_open id (x :: cs)
  = match last_open id cs with
    | Some c => Some c
    | None =>
        if State_eqb (State x) OPEN && String.eqb (ChannelId x) id then Some x else None
    end.
Proof.
  unfold last_open. simpl.
  destruct (State_eqb (State x) OPEN && String.eqb (ChannelId x) id); [| by destruct (last _)].
  by rewrite last_cons.
Qed.

Lemma open_loop_lookup (cs : list IdentifiedChannel) (m : gmap string ActiveChannel)
    (id : string) :
  fold_left open_step cs m !! id
  = match last_open id cs with
    | Some c => Some {| channel := c; active := false |}
    | None => m !! id
    end.
Proof.
  revert m. induction cs as [|x cs IH]; intros m; [done |].
  simpl. rewrite IH, last_open_cons.
  destruct (last_open id cs); [done |].
  unfold open_step. destruct (State_eqb (State x) OPEN); simpl; [| done].
  destruct (String.eqb_spec (ChannelId x) id) as [-> | Hne].
  - by rewrite lookup_insert_eq.
  - by rewrite lookup_insert_ne.
Qed.

Lemma last_open_Some (id : string) (cs : list IdentifiedChannel) (c : IdentifiedChannel) :
  last_open id cs = Some c -> c ∈ cs /\ State c = OPEN /\ ChannelId c = id.
Proof.
  unfold last_open. intros Hl. apply last_Some_elem_of in Hl.
  apply list_elem_of_In, filter_In in Hl as [Hin Hp].
  apply andb_true_iff in Hp as [Hs Hi]. apply String.eqb_eq in Hi.
  split; [by apply list_elem_of_In |]. split; [| done].
  by destruct (State c).
Qed.

Lemma last_open_None (id : string) (cs : list IdentifiedChannel) :
  last_open id cs = None ->
  forall c, c ∈ cs -> State c = OPEN -> ChannelId c <> id.
Proof.
  unfold last_open. intros Hl c Hin Hs Hi.
  apply last_None in Hl.
  assert (Hc : In c (List.filter
                       (fun c => State_eqb (State c) OPEN && String.eqb (ChannelId c) id) cs)).
  { apply filter_In. split; [by apply list_elem_of_In |].
    rewrite Hs, Hi, String.eqb_refl. reflexivity. }
  rewrite Hl in Hc. destruct Hc.
Qed.

Lemma filterOpenChannels_last (cs : list IdentifiedChannel) (id : string) :
  filterOpenChannels cs !! id
  = (fun c => {| channel := c; active := false |}) <$> last_open id cs.
Proof.
  unfold filterOpenChannels. rewrite open_loop_lookup, lookup_empty.
  by destruct (last_open id cs).
Qed.

(** X1. The entry of [filterOpenChannels] under an id is the last OPEN
    channel of the input with that id, marked inactive, and there is none
    when no OPEN channel of the input has the id: every entry is an OPEN
    channel of the input stored under its own id, and of two OPEN channels
    with one id the later one is kept. *)
Theorem filterOpenChannels_lookup (cs : list IdentifiedChannel) (id : string) :
  filterOpenChannels cs !! id
  = (fun c => {| channel := c; active := false |}) <$> last_open id cs /\
  (forall ac, filterOpenChannels cs !! id = Some ac ->
     channel ac ∈ cs /\ State (channel ac) = OPEN /\ ChannelId (channel ac) = id /\
     active ac = false) /\
  (filterOpenChannels cs !! id = None <->
   forall c, c ∈ cs -> State c = OPEN -> ChannelId c <> id).
Proof.
  pose proof (filterOpenChannels_last cs id) as Heq.
  split; [exact Heq |]. split.
  - intros ac. rewrite Heq. destruct (last_open id cs) as [c|] eqn:Hl; [| done].
    intros [= <-]. simpl. destruct (last_open_Some _ _ _ Hl) as (? & ? & ?). done.
  - rewrite Heq. destruct (last_open id cs) as [c|] eqn:Hl; simpl.
    + split; [done |]. intros Hno.
      destruct (last_open_Some _ _ _ Hl) as (Hin & Hs & Hi). by destruct (Hno c).
    + split; [intros _; by apply last_open_None | done].
Qed.

(** ** The channel filter, again *)

Lemma filter_twice {A} (P : A -> Prop) `{!forall x, Decision (P x)} (l : list A) :
  filter P (filter P l) = filter P l.
Proof.
  induction l as [|x l IH]; [done |].
  destruct (decide (P x)) as [HP | HP].
  - rewrite (filter_cons_True _ _ _ HP), (filter_cons_True _ _ _ HP). by rewrite IH.
  - by rewrite (filter_cons_False _ _ _ HP).
Qed.

(** X2. Filtering twice with one filter is filtering once, whatever the two
    rule constants and the rule of the filter are. *)
Theorem applyChannelFilterRule_idempotent (allowList denyList : string)
    (F : ChannelFilter) (C : list IdentifiedChannel) :
  applyChannelFilterRule allowList denyList F
    (applyChannelFilterRule allowList denyList F C)
  = applyChannelFilterRule allowList denyList F C.
Proof.
  unfold applyChannelFilterRule.
  destruct (String.eqb (Rule F) allowList).
  - rewrite !(append_loop_keep (fun c => ChannelId c ∈ ChannelList F));
      try (intros c; apply InChannelList_elem_of).
    simpl. apply filter_twice.
  - destruct (String.eqb (Rule F) denyList); [| done].
    rewrite !(append_loop_skip (fun c => ChannelId c ∈ ChannelList F));
      try (intros c; apply InChannelList_elem_of).
    simpl. apply filter_twice.
Qed.

(** ** The workers the scheduler starts *)

Lemma List_filter_sublist {A} (p : A -> bool) (l : list A) :
  List.filter p l `sublist_of` l.
Proof.
  induction l as [|x l IH]; simpl; [done |].
  destruct (p x); [by apply sublist_skip | by apply sublist_cons].
Qed.

Lemma inactive_ids_NoDup (m : gmap string ActiveChannel) : NoDup (inactive_ids m).
Proof.
  unfold inactive_ids.
  eapply sublist_NoDup; [apply (NoDup_fst_map_to_list m) |].
  change (map fst ?l) with (fst <$> l).
  apply fmap_sublist, List_filter_sublist.
Qed.

Lemma inactive_ids_elem_of (m : gmap string ActiveChannel) (id : string) :
  id ∈ inactive_ids m <-> exists c, m !! id = Some c /\ active c = false.
Proof.
  unfold inactive_ids. rewrite list_elem_of_In, in_map_iff. split.
  - intros ([k c] & Hk & Hin). simpl in Hk. subst k.
    apply filter_In in Hin as [Hin Hp].
    apply list_elem_of_In, elem_of_map_to_list in Hin.
    exists c. split; [done |]. simpl in Hp. by destruct (active c).
  - intros (c & Hm & Ha). exists (id, c). split; [done |].
    apply filter_In. split.
    + by apply list_elem_of_In, elem_of_map_to_list.
    + simpl. by rewrite Ha.
Qed.

(** X3. At startup the scheduler starts one worker per channel id for which
    an OPEN channel survives the filter, and no two workers on one id. *)
Theorem initial_workers_spec (allowList denyList : string) (src : Chain)
    (env : DiscoveryEnv) (filter : ChannelFilter) (cs : list IdentifiedChannel) :
  queryChannelsOnConnection env = inr cs ->
  NoDup (initial_workers allowList denyList src env filter) /\
  forall id,
    id ∈ initial_workers allowList denyList src env filter <->
    exists c, c ∈ applyChannelFilterRule allowList denyList filter cs /\
              State c = OPEN /\ ChannelId c = id.
Proof.
  intros Hq. unfold initial_workers, relayerMainLoop. rewrite Hq. simpl.
  set (kept := applyChannelFilterRule allowList denyList filter cs).
  assert (Hkey : forall id,
            (exists c, filterOpenChannels kept !! id = Some c /\ active c = false) <->
            exists c, c ∈ kept /\ State c = OPEN /\ ChannelId c = id).
  { intros id. rewrite filterOpenChannels_last.
    destruct (last_open id kept) as [c|] eqn:Hl; simpl.
    - destruct (last_open_Some _ _ _ Hl) as (Hin & Hs & Hi). split; eauto.
    - split; [intros (ac & Hm & _); discriminate Hm |].
      intros (c & Hin & Hs & Hi). destruct (last_open_None _ _ Hl c Hin Hs Hi). }
  destruct (size (filterOpenChannels kept) =? 0)%nat eqn:Hsz; simpl.
  - split; [constructor |]. intros id. split; [intros H; inversion H |].
    intros Hc. apply Hkey in Hc as (ac & Hm & _).
    apply Nat.eqb_eq, map_size_empty_iff in Hsz. rewrite Hsz, lookup_empty in Hm. done.
  - split; [apply inactive_ids_NoDup |].
    intros id. rewrite inactive_ids_elem_of. apply Hkey.
Qed.

Lemma initial_workers_spec_witness :
  NoDup (initial_workers "allowlist" "denylist" src_chain (discovers discovered) allow_0_3) /\
  "ch-0" ∈ initial_workers "allowlist" "denylist" src_chain (discovers discovered) allow_0_3.
Proof.
  destruct (initial_workers_spec "allowlist" "denylist" src_chain (discovers discovered)
              allow_0_3 discovered eq_refl) as [Hnd Hin].
  split; [exact Hnd |].
  apply Hin. exists (ch "ch-0" OPEN). split; [| done].
  apply list_elem_of_In. simpl. by left.
Defined.

(** ** No second worker before the first has exited *)

Lemma occurrences_app (id : string) (l1 l2 : list string) :
  occurrences id (l1 ++ l2) = (occurrences id l1 + occurrences id l2)%nat.
Proof. unfold occurrences. by rewrite List.filter_app, length_app. Qed.

Lemma occurrences_not_in (id : string) (l : list string) :
  id ∉ l -> occurrences id l = 0%nat.
Proof.
  unfold occurrences. induction l as [|x l IH]; intros Hn; [done |].
  simpl. destruct (String.eqb_spec id x) as [-> | Hne].
  - destruct Hn. by left.
  - apply IH. intros Hin. apply Hn. by right.
Qed.

Lemma occurrences_NoDup (id : string) (l : list string) :
  NoDup l -> id ∈ l -> occurrences id l = 1%nat.
Proof.
  induction 1 as [|x l Hx Hnd IH]; intros Hin; [inversion Hin |].
  unfold occurrences in *. simpl. destruct (String.eqb_spec id x) as [-> | Hne].
  - simpl. f_equal. by apply (occurrences_not_in x l).
  - apply IH. inversion Hin; subst; [done | done].
Qed.

(** The workers one pass of the spawning loop starts on an id: one when the
    channel is in the map and not active, none otherwise. *)
Lemma occurrences_inactive_ids (id : string) (m : gmap string ActiveChannel) :
  occurrences id (inactive_ids m)
  = match m !! id with
    | Some c => if active c then 0%nat else 1%nat
    | None => 0%nat
    end.
Proof.
  destruct (m !! id) as [c|] eqn:Hm; [destruct (active c) eqn:Ha |].
  - apply occurrences_not_in. rewrite inactive_ids_elem_of.
    intros (c' & Hm' & Ha'). congruence.
  - apply occurrences_NoDup; [apply inactive_ids_NoDup |].
    apply inactive_ids_elem_of. eauto.
  - apply occurrences_not_in. rewrite inactive_ids_elem_of.
    intros (c' & Hm' & _). congruence.
Qed.

Lemma live_spawn (id : string) (m : gmap string ActiveChannel) :
  live id (set_active true <$> m) = (live id m + occurrences id (inactive_ids m))%nat.
Proof.
  rewrite occurrences_inactive_ids. unfold live. rewrite lookup_fmap.
  destruct (m !! id) as [c|]; simpl; [| done]. by destruct (active c).
Qed.

Lemma live_exit_self (id : string) (m : gmap string ActiveChannel) :
  live id (alter (set_active false) id m) = 0%nat.
Proof.
  unfold live. rewrite lookup_alter_eq. by destruct (m !! id).
Qed.

Lemma live_exit_other (id id' : string) (m : gmap string ActiveChannel) :
  id' <> id -> live id (alter (set_active false) id' m) = live id m.
Proof. intros Hne. unfold live. by rewrite lookup_alter_ne. Qed.

Lemma live_delete (id id' : string) (m : gmap string ActiveChannel) :
  (live id (delete id' m) <= live id m)%nat.
Proof.
  unfold live. destruct (decide (id' = id)) as [-> | Hne].
  - rewrite lookup_delete_eq. lia.
  - by rewrite lookup_delete_ne.
Qed.

Lemma live_le_1 (id : string) (m : gmap string ActiveChannel) : (live id m <= 1)%nat.
Proof. unfold live. destruct (m !! id) as [c|]; [destruct (active c) |]; lia. Qed.

(** The invariant of the main loop: the workers started on a channel are at
    most the completions received for it, plus one while it is marked
    active. *)
Lemma schedulerLoop_started_bound (id : string) (events : list SelectEvent)
    (st : Scheduler) (k : nat) :
  (occurrences id (started st) <= k + live id (srcOpenChannels st))%nat ->
  (occurrences id (started (fst (schedulerLoop events st)))
   <= k + exits id events + live id (srcOpenChannels (fst (schedulerLoop events st))))%nat.
Proof.
  revert st k. induction events as [|ev events IH]; intros st k Hinv; simpl.
  - destruct (size _ =? 0)%nat; simpl; [lia |].
    rewrite occurrences_app, live_spawn. lia.
  - destruct (size _ =? 0)%nat; simpl; [lia |].
    assert (Hspawn : (occurrences id (started st ++ inactive_ids (srcOpenChannels st))
                      <= k + live id (set_active true <$> srcOpenChannels st))%nat)
      by (rewrite occurrences_app, live_spawn; lia).
    pose proof (live_le_1 id (set_active true <$> srcOpenChannels st)) as Hle.
    destruct ev as [id' [err | state] | ctxErr]; simpl.
    + destruct (String.eqb_spec id id') as [<- | Hne].
      * rewrite live_exit_self. lia.
      * rewrite live_exit_other by done. lia.
    + destruct (String.eqb_spec id id') as [<- | Hne].
      * destruct (State_eqb state OPEN).
        -- etrans; [apply (IH _ (S k)) |]; simpl; [| lia].
           rewrite live_exit_self. lia.
        -- etrans; [apply (IH _ (S k)) |]; simpl; [| lia]. lia.
      * destruct (State_eqb state OPEN).
        -- etrans; [apply (IH _ k) |]; simpl; [| lia].
           rewrite live_exit_other by done. lia.
        -- etrans; [apply (IH _ k) |]; simpl; [| lia].
           unfold live at 1. rewrite lookup_delete_ne by done.
           fold (live id (alter (set_active false) id'
                            (set_active true <$> srcOpenChannels st))).
           rewrite live_exit_other by done. lia.
    + lia.
Qed.

(** X4. However the completions and the cancellation arrive, the scheduler
    starts a worker on a channel at most once more than it has received
    completions for that channel: a channel is not given a second worker
    before the first has signalled its exit. *)
Theorem one_worker_per_channel (allowList denyList : string) (src : Chain)
    (env : DiscoveryEnv) (filter : ChannelFilter) (events : list SelectEvent)
    (id : string) :
  (occurrences id (started (fst (relayerMainLoop allowList denyList src env filter events)))
   <= exits id events + 1)%nat.
Proof.
  unfold relayerMainLoop.
  destruct (queryChannelsOnConnection env) as [err | cs].
  - destruct (errors_Is err Canceled); simpl; unfold occurrences; simpl; lia.
  - match goal with
    | |- context [schedulerLoop events ?st0] =>
        pose proof (schedulerLoop_started_bound id events st0 0) as Hb;
        pose proof (live_le_1 id (srcOpenChannels (fst (schedulerLoop events st0)))) as Hl
    end.
    simpl in Hb. unfold occurrences at 1 in Hb. simpl in Hb.
    specialize (Hb ltac:(lia)). lia.
Qed.

(** ** Channels that close, channels that stay open *)

Lemma schedulerLoop_absent (id : string) (events : list SelectEvent) (st : Scheduler) :
  srcOpenChannels st !! id = None ->
  srcOpenChannels (fst (schedulerLoop events st)) !! id = None /\
  occurrences id (started (fst (schedulerLoop events st))) = occurrences id (started st).
Proof.
  intros Hm. split.
  - apply not_elem_of_dom. intros Hin.
    apply (schedulerLoop_dom events st) in Hin. by apply not_elem_of_dom in Hm.
  - revert st Hm. induction events as [|ev events IH]; intros st Hm; simpl.
    + destruct (size _ =? 0)%nat; simpl; [done |].
      rewrite occurrences_app, occurrences_inactive_ids, Hm. lia.
    + destruct (size _ =? 0)%nat; simpl; [done |].
      assert (Hocc : occurrences id (started st ++ inactive_ids (srcOpenChannels st))
                     = occurrences id (started st))
        by (rewrite occurrences_app, occurrences_inactive_ids, Hm; lia).
      assert (Hnone : forall id', alter (set_active false) id'
                                    (set_active true <$> srcOpenChannels st) !! id = None).
      { intros id'. destruct (decide (id' = id)) as [-> | Hne].
        - by rewrite lookup_alter_eq, lookup_fmap, Hm.
        - by rewrite lookup_alter_ne, lookup_fmap, Hm. }
      destruct ev as [id' [err | state] | ctxErr]; simpl; [done | | done].
      destruct (State_eqb state OPEN).
      * rewrite IH; [done |]. simpl. apply Hnone.
      * rewrite IH; [done |]. simpl.
        destruct (decide (id' = id)) as [-> | Hne].
        -- by rewrite lookup_delete_eq.
        -- rewrite lookup_delete_ne by done. apply Hnone.
Qed.

(** X5. When the worker of a channel exits and the channel is found in a
    state other than OPEN, the channel leaves the map for good and no
    worker is ever started on it again, whatever happens next: the workers
    started on it are those started before the exit was received. *)
Theorem closed_channel_retired (id : string) (state : types_State)
    (rest : list SelectEvent) (st : Scheduler) :
  State_eqb state OPEN = false ->
  srcOpenChannels (fst (schedulerLoop (WorkerExited id (inr state) :: rest) st)) !! id
  = None /\
  occurrences id (started (fst (schedulerLoop (WorkerExited id (inr state) :: rest) st)))
  = occurrences id (started (fst (schedulerLoop [] st))).
Proof.
  intros Hs. simpl.
  destruct (size (srcOpenChannels st) =? 0)%nat eqn:Hsz; simpl.
  - split; [| done].
    apply Nat.eqb_eq, map_size_empty_iff in Hsz. by rewrite Hsz, lookup_empty.
  - rewrite Hs.
    match goal with
    | |- context [schedulerLoop rest ?st3] =>
        destruct (schedulerLoop_absent id rest st3) as [Hmap Hocc]
    end; [simpl; apply lookup_delete_eq |].
    split; [exact Hmap | exact Hocc].
Qed.

Lemma closed_channel_retired_witness :
  State_eqb CLOSED OPEN = false /\
  occurrences "ch-0"
    (started (fst (schedulerLoop
                     [WorkerExited "ch-0" (inr CLOSED); WorkerExited "ch-1" (inr OPEN);
                      WorkerExited "ch-5" (inr OPEN)]
                     discovered_state)))
  = occurrences "ch-0" (started (fst (schedulerLoop [] discovered_state))).
Proof.
  split; [reflexivity |].
  apply (proj2 (closed_channel_retired "ch-0" CLOSED
                  [WorkerExited "ch-1" (inr OPEN); WorkerExited "ch-5" (inr OPEN)]
                  discovered_state eq_refl)).
Defined.

Lemma singleton_list (id : string) (l : list string) :
  NoDup l -> (forall x, x ∈ l <-> x = id) -> l = [id].
Proof.
  intros Hnd Hin. destruct l as [|x l].
  - pose proof (proj2 (Hin id) eq_refl) as Hnil. inversion Hnil.
  - assert (x = id) as -> by (apply Hin; by left).
    destruct l as [|y l]; [done |].
    assert (y = id) as -> by (apply Hin; right; by left).
    inversion Hnd as [|? ? Hx _]; subst. destruct Hx. by left.
Qed.

(** X6. When the worker of a channel of the map exits and the channel is
    still OPEN, the next turn of the loop starts exactly one worker, on that
    channel. *)
Theorem open_channel_restarted (id : string) (c : ActiveChannel) (st : Scheduler) :
  srcOpenChannels st !! id = Some c ->
  started (fst (schedulerLoop [WorkerExited id (inr OPEN)] st))
  = started (fst (schedulerLoop [] st)) ++ [id] /\
  snd (schedulerLoop [WorkerExited id (inr OPEN)] st) = LoopWaiting.
Proof.
  intros Hm. simpl.
  assert (Hsz : (size (srcOpenChannels st) =? 0)%nat = false).
  { apply Nat.eqb_neq. intros H0. apply map_size_empty_iff in H0.
    by rewrite H0, lookup_empty in Hm. }
  rewrite Hsz. simpl.
  set (m2 := alter (set_active false) id (set_active true <$> srcOpenChannels st)).
  assert (Hsz2 : (size m2 =? 0)%nat = false).
  { apply Nat.eqb_neq. intros H0. apply map_size_empty_iff in H0.
    assert (Hl : m2 !! id = Some (set_active false (set_active true c)))
      by (unfold m2; by rewrite lookup_alter_eq, lookup_fmap, Hm).
    by rewrite H0, lookup_empty in Hl. }
  rewrite Hsz2. simpl. split; [| done]. f_equal.
  apply singleton_list; [apply inactive_ids_NoDup |].
  intros x. rewrite inactive_ids_elem_of. unfold m2. split.
  - intros (c' & Hl & Ha). destruct (decide (id = x)) as [<- | Hne]; [done |].
    rewrite lookup_alter_ne, lookup_fmap in Hl by done.
    destruct (srcOpenChannels st !! x); simplify_eq/=.
  - intros ->. exists (set_active false (set_active true c)).
    by rewrite lookup_alter_eq, lookup_fmap, Hm.
Qed.

Lemma open_channel_restarted_witness :
  started (fst (schedulerLoop [WorkerExited "ch-0" (inr OPEN)] discovered_state))
  = started (fst (schedulerLoop [] discovered_state)) ++ ["ch-0"].
Proof.
  apply (proj1 (open_channel_restarted "ch-0"
                  {| channel := ch "ch-0" OPEN; active := false |}
                  discovered_state eq_refl)).
Defined.

(** ** What is sent on the failure channel *)

Lemma schedulerLoop_errCh (events : list SelectEvent) (st : Scheduler) :
  match snd (schedulerLoop events st) with
  | LoopReturned => exists e, errCh (fst (schedulerLoop events st)) = errCh st ++ [e]
  | LoopWaiting => errCh (fst (schedulerLoop events st)) = errCh st
  end.
Proof.
  revert st. induction events as [|ev events IH]; intros st; simpl.
  - destruct (size _ =? 0)%nat; simpl; eauto.
  - destruct (size _ =? 0)%nat; simpl; [eauto |].
    destruct ev as [id [err | state] | ctxErr]; simpl; [eauto | | eauto].
    destruct (State_eqb state OPEN).
    + match goal with |- context [schedulerLoop events ?s] => apply (IH s) end.
    + match goal with |- context [schedulerLoop events ?s] => apply (IH s) end.
Qed.

(** X7. The main loop sends on the failure channel exactly once, at the
    moment it returns, and nothing while it is waiting for an event: one
    slot of buffer is enough for its send never to block. *)
Theorem one_error_when_returned (allowList denyList : string) (src : Chain)
    (env : DiscoveryEnv) (filter : ChannelFilter) (events : list SelectEvent) :
  match snd (relayerMainLoop allowList denyList src env filter events) with
  | LoopReturned =>
      exists e, errCh (fst (relayerMainLoop allowList denyList src env filter events)) = [e]
  | LoopWaiting =>
      errCh (fst (relayerMainLoop allowList denyList src env filter events)) = []
  end.
Proof.
  unfold relayerMainLoop.
  destruct (queryChannelsOnConnection env) as [err | cs].
  - destruct (errors_Is err Canceled); simpl; eauto.
  - match goal with |- context [schedulerLoop events ?s] =>
      exact (schedulerLoop_errCh events s) end.
Qed.

Lemma errors_Is_wrap (msg : string) (err : error) (target : sentinel) :
  errors_Is (fmt_Errorf_w msg err) target = errors_Is err target.
Proof. by destruct target. Qed.

(** X8. When channel discovery fails, the main loop returns at once: it
    makes no completion queue and starts no worker, and it sends one error.
    A cancellation is sent as it is; any other error is sent wrapped under a
    message that names the chain and the connection and ends with the
    message of the error, and [errors.Is] still finds in it what it finds in
    the error. *)
Theorem discovery_failure_terminal (allowList denyList : string) (src : Chain)
    (env : DiscoveryEnv) (filter : ChannelFilter) (events : list SelectEvent)
    (err : error) :
  queryChannelsOnConnection env = inl err ->
  exists sent,
    relayerMainLoop allowList denyList src env filter events
    = ({| srcOpenChannels := ∅; channels_cap := None; wg := 0;
          started := []; errCh := [sent] |}, LoopReturned) /\
    (forall target, errors_Is sent target = errors_Is err target) /\
    (errors_Is err Canceled = true -> sent = err) /\
    (errors_Is err Canceled = false ->
     Error sent
     = ("error querying all channels on chain{" ++ ChainID src ++ "}@connection{"
        ++ ConnectionID src ++ "}: " ++ Error err)%string).
Proof.
  intros Hq. unfold relayerMainLoop. rewrite Hq.
  destruct (errors_Is err Canceled) eqn:Hc.
  - exists err. repeat split; done.
  - eexists. split; [reflexivity |]. split; [| split; [done | done]].
    intros target. apply errors_Is_wrap.
Qed.

Lemma discovery_failure_terminal_witness :
  exists sent,
    relayerMainLoop "allowlist" "denylist" src_chain discovery_times_out pass_all []
    = ({| srcOpenChannels := ∅; channels_cap := None; wg := 0;
          started := []; errCh := [sent] |}, LoopReturned) /\
    errors_Is sent DeadlineExceeded = true /\
    Error sent
    = "error querying all channels on chain{hub-1}@connection{connection-0}: rpc: context deadline exceeded".
Proof.
  destruct (discovery_failure_terminal "allowlist" "denylist" src_chain discovery_times_out
              pass_all []
              (fmt_Errorf_w "rpc: context deadline exceeded" context_DeadlineExceeded)
              eq_refl)
    as (sent & Hrun & His & _ & Hmsg).
  exists sent. split; [exact Hrun |]. split.
  - rewrite His. reflexivity.
  - rewrite Hmsg; reflexivity.
Defined.

(** ** What the passes call, and what they return *)

(** Membership in a trace that is written out: one case per entry. *)
Ltac in_trace H :=
  repeat match type of H with
         | _ ∈ _ :: _ => apply elem_of_cons in H as [H | H]
         | _ ∈ [] => apply elem_of_nil in H; destruct H
         | _ = _ => try discriminate H
         end.

(** X9. A packet pass calls [RelayPackets] only at the heights the heights
    query returned and with the sequences [UnrelayedSequences] returned for
    the heights below them, and only when those sequences are not empty:
    when the heights query fails or nothing is unrelayed, nothing is
    submitted. *)
Theorem relay_packets_only_when_needed (env : PacketEnv) (srch dsth : Z)
    (sp : RelaySequences) :
  Call_RelayPackets srch dsth sp ∈ trace_of (relayUnrelayedPackets env) ->
  pk_QueryLatestHeights env = Returns (inr (srch, dsth)) /\
  pk_UnrelayedSequences env (Int.sub_int64 srch 1) (Int.sub_int64 dsth 1) = Returns sp /\
  Empty sp = false.
Proof.
  go_unfold.
  destruct (pk_QueryLatestHeights env) as [[err | [a b]]| | |] eqn:Hh; simpl;
    try (intros H; in_trace H; fail).
  destruct (pk_UnrelayedSequences env _ _) as [sp' | | |] eqn:Hs; simpl;
    try (intros H; in_trace H; fail).
  destruct (Empty sp') eqn:He; simpl; [intros H; in_trace H |].
  assert (Hcall : Call_RelayPackets srch dsth sp = Call_RelayPackets a b sp' ->
                  Returns (inr (a, b) : error + Z * Z) = Returns (inr (srch, dsth)) /\
                  pk_UnrelayedSequences env (Int.sub_int64 srch 1) (Int.sub_int64 dsth 1)
                  = Returns sp /\ Empty sp = false).
  { intros [= -> -> ->]. done. }
  destruct (0 <? length (Src sp'))%nat, (0 <? length (Dst sp'))%nat; simpl;
    (destruct (pk_RelayPackets env a b sp') as [[e|]| | |]; simpl;
     [destruct (is_context_error e); [| destruct (Strings.Contains _ _)] | ..]);
    simpl; intros H; in_trace H; by apply Hcall.
Qed.

Lemma relay_packets_only_when_needed_witness :
  pk_UnrelayedSequences (packets_failing (errors_New "tx rejected"))
    (Int.sub_int64 10 1) (Int.sub_int64 12 1)
  = Returns {| Src := [1]; Dst := [] |} /\
  Empty {| Src := [1]; Dst := [] |} = false.
Proof.
  apply (relay_packets_only_when_needed (packets_failing (errors_New "tx rejected"))
           10 12 {| Src := [1]; Dst := [] |}).
  unfold trace_of. simpl. do 3 apply list_elem_of_further. apply list_elem_of_here.
Defined.

(** X10. When its collaborators return, a packet pass returns false in three
    cases only: the heights query fails, or [RelayPackets] had something to
    relay and failed with a context error (cancelled or past its deadline,
    wrapped or not), or with an error whose message holds the indexing
    text. It returns true when there is nothing to relay, when the relay
    succeeds and when it fails with any other error. *)
Theorem packets_pass_verdict (env : PacketEnv) (heights : error + Z * Z)
    (sp : RelaySequences) (relayErr : option error) :
  pk_QueryLatestHeights env = Returns heights ->
  (forall srch dsth, heights = inr (srch, dsth) ->
     pk_UnrelayedSequences env (Int.sub_int64 srch 1) (Int.sub_int64 dsth 1) = Returns sp /\
     pk_RelayPackets env srch dsth sp = Returns relayErr) ->
  outcome_of (relayUnrelayedPackets env) = Returns (packets_verdict heights sp relayErr).
Proof.
  intros Hh Hrest. go_unfold. rewrite Hh.
  destruct heights as [err | [srch dsth]]; [reflexivity |].
  destruct (Hrest srch dsth eq_refl) as [Hs Hr]. simpl. rewrite Hs. simpl.
  destruct (Empty sp); [reflexivity |].
  destruct (0 <? length (Src sp))%nat, (0 <? length (Dst sp))%nat; simpl;
    rewrite Hr; simpl;
    (destruct relayErr as [e|]; [| reflexivity]);
    destruct (is_context_error e); [reflexivity | | reflexivity | | reflexivity | | reflexivity |];
    by destruct (Strings.Contains _ _).
Qed.

Lemma packets_pass_verdict_witness :
  outcome_of (relayUnrelayedPackets
                (packets_failing (fmt_Errorf_w "broadcast: context canceled" context_Canceled)))
  = Returns false.
Proof.
  apply (packets_pass_verdict
           (packets_failing (fmt_Errorf_w "broadcast: context canceled" context_Canceled))
           (inr (10, 12)) {| Src := [1]; Dst := [] |}
           (Some (fmt_Errorf_w "broadcast: context canceled" context_Canceled)) eq_refl).
  intros srch dsth _. split; reflexivity.
Defined.

(** X11. The helper of an acknowledgement direction calls
    [relayAcknowledgements] only with the sequences that
    [unrelayedAcknowledgements] returned, only when these are not empty and
    came with a nil error, and only from its source to its destination at its
    own, unadjusted source height. *)
Theorem relay_acks_only_when_needed (env : AckEnv) (src dst : Endpoint) (srch dsth : Z)
    (h : Store) (s : Slice) (src' dst' : Endpoint) (height : Z) (sequences : list Z) :
  Call_relayAcknowledgements src' height sequences dst'
  ∈ trace_of (relayUnrelayedAcksHelper env src srch dst dsth h s) ->
  sequences <> [] /\ src' = src /\ dst' = dst /\ height = srch /\
  exists h1 candidate,
    ak_unrelayedAcknowledgements env (Int.sub_int64 srch 1) (Int.sub_int64 dsth 1) h s
    = Returns (h1, candidate, sequences, None).
Proof.
  go_unfold.
  destruct (ak_unrelayedAcknowledgements env _ _ h s)
    as [[[[h1 c] [|x l]] [e|]]| | |] eqn:Hu; simpl;
    try (intros H; in_trace H; fail).
  destruct (ak_relayAcknowledgements env srch (x :: l)) as [[e|]| | |]; simpl;
    [destruct (is_context_error e) | ..]; simpl;
    intros H; in_trace H; injection H as -> -> -> ->; repeat split; eauto.
Qed.

Lemma relay_acks_only_when_needed_witness :
  [5] <> [] /\ hub_end = hub_end /\ rollapp_end = rollapp_end /\ 10 = 10 /\
  exists h1 candidate,
    ak_unrelayedAcknowledgements ack_relay_fails (Int.sub_int64 10 1) (Int.sub_int64 12 1)
      ∅ empty_slice
    = Returns (h1, candidate, [5], None).
Proof.
  apply (relay_acks_only_when_needed ack_relay_fails hub_end rollapp_end 10 12
           ∅ empty_slice hub_end rollapp_end 10 [5]).
  unfold trace_of. simpl. apply list_elem_of_further, list_elem_of_here.
Defined.

(** The helper returns nil only after a sequence query that returned nil
    and, when there was something to relay, a relay that returned nil; the
    slice it leaves is the candidate. *)
Lemma helper_returns_nil (env : AckEnv) (src dst : Endpoint) (srch dsth : Z)
    (h : Store) (s : Slice) (t : list Event) (h' : Store) (s' : Slice) :
  relayUnrelayedAcksHelper env src srch dst dsth h s = (t, Returns (h', s', None)) ->
  exists sequences,
    ak_unrelayedAcknowledgements env (Int.sub_int64 srch 1) (Int.sub_int64 dsth 1) h s
    = Returns (h', s', sequences, None) /\
    (sequences <> [] -> ak_relayAcknowledgements env srch sequences = Returns None).
Proof.
  go_unfold.
  destruct (ak_unrelayedAcknowledgements env _ _ h s)
    as [[[[h1 c] [|x l]] [e|]]| | |] eqn:Hu; simpl; try discriminate.
  - intros [= <- <- <-]. exists []. split; [done | done].
  - destruct (ak_relayAcknowledgements env srch (x :: l)) as [[e|]| | |] eqn:Hr; simpl;
      [destruct (is_context_error e) | ..]; simpl; try discriminate.
    intros [= <- <- <-]. exists (x :: l). split; [done | done].
Qed.

(** X12. An acknowledgement pass returns true only when, in both
    directions, the sequence query returned a nil error and every non-empty
    batch was relayed without error; the two caches it leaves are then the
    candidates as the two sequence queries left them, the destination
    direction working on the store the source direction left. *)
Theorem acks_pass_true_commits (env : AcksEnv) (src dst : Chain)
    (srcChannel : IdentifiedChannel) (h : Store) (sS sD : Slice)
    (t : list Event) (h' : Store) (sS' sD' : Slice) :
  relayUnrelayedAcks env src dst srcChannel h sS sD = (t, Returns (h', sS', sD', true)) ->
  exists srch dsth h1 sequencesSrc sequencesDst,
    ak_QueryLatestHeights env = Returns (inr (srch, dsth)) /\
    ak_unrelayedAcknowledgements (ak_src env) (Int.sub_int64 srch 1) (Int.sub_int64 dsth 1)
      h sS = Returns (h1, sS', sequencesSrc, None) /\
    ak_unrelayedAcknowledgements (ak_dst env) (Int.sub_int64 dsth 1) (Int.sub_int64 srch 1)
      h1 sD = Returns (h', sD', sequencesDst, None) /\
    (sequencesSrc <> [] ->
     ak_relayAcknowledgements (ak_src env) srch sequencesSrc = Returns None) /\
    (sequencesDst <> [] ->
     ak_relayAcknowledgements (ak_dst env) dsth sequencesDst = Returns None).
Proof.
  unfold relayUnrelayedAcks, call, bind, goroutine, ret, log, emit.
  destruct (ak_QueryLatestHeights env) as [[err | [srch dsth]]| | |]; simpl;
    try discriminate.
  destruct (relayUnrelayedAcksHelper (ak_src env) _ _ _ _ h sS)
    as [t1 [[[h1 s1] e1]| | |]] eqn:H1; simpl; try discriminate.
  destruct (relayUnrelayedAcksHelper (ak_dst env) _ _ _ _ h1 sD)
    as [t2 [[[h2 s2] e2]| | |]] eqn:H2; simpl; try discriminate.
  destruct e1 as [e1|], e2 as [e2|]; simpl; try discriminate.
  intros [= _ <- <- <-].
  destruct (helper_returns_nil _ _ _ _ _ _ _ _ _ _ H1) as (q1 & Hu1 & Hr1).
  destruct (helper_returns_nil _ _ _ _ _ _ _ _ _ _ H2) as (q2 & Hu2 & Hr2).
  exists srch, dsth, h1, q1, q2. done.
Qed.

Lemma acks_pass_true_commits_witness :
  exists srch dsth h1 sequencesSrc sequencesDst,
    ak_QueryLatestHeights acks_idle = Returns (inr (srch, dsth)) /\
    ak_unrelayedAcknowledgements (ak_src acks_idle)
      (Int.sub_int64 srch 1) (Int.sub_int64 dsth 1) store_12 slice_12
    = Returns (h1, slice_12, sequencesSrc, None) /\
    ak_unrelayedAcknowledgements (ak_dst acks_idle)
      (Int.sub_int64 dsth 1) (Int.sub_int64 srch 1) h1 empty_slice
    = Returns (store_12, empty_slice, sequencesDst, None) /\
    (sequencesSrc <> [] ->
     ak_relayAcknowledgements (ak_src acks_idle) srch sequencesSrc = Returns None) /\
    (sequencesDst <> [] ->
     ak_relayAcknowledgements (ak_dst acks_idle) dsth sequencesDst = Returns None).
Proof.
  eapply (acks_pass_true_commits acks_idle src_chain dst_chain (ch "ch-0" OPEN)
            store_12 slice_12 empty_slice).
  reflexivity.
Defined.

(** ** The rounds of the worker *)

(** X13. A round in which both passes return true runs the packet pass
    before the acknowledgement pass; if the context is done by the end of it
    the worker leaves, otherwise the next round starts on the store and the
    two caches with which the acknowledgement pass of this round ended. *)
Theorem worker_next_round (src dst : Chain) (srcChannel : IdentifiedChannel)
    (r : Round) (rounds : list Round) (h h' : Store) (s1 s2 s1' s2' : Slice)
    (tp ta : list Event) :
  relayUnrelayedPackets (round_packets r) = (tp, Returns true) ->
  relayUnrelayedAcks (round_acks r) src dst srcChannel h s1 s2
  = (ta, Returns (h', s1', s2', true)) ->
  workerLoop src dst srcChannel (r :: rounds) h s1 s2
  = if round_ctx_done r then (tp ++ ta, Returns LoopLeft)
    else (tp ++ ta ++ trace_of (workerLoop src dst srcChannel rounds h' s1' s2'),
          outcome_of (workerLoop src dst srcChannel rounds h' s1' s2')).
Proof.
  intros Hp Ha. simpl. rewrite Hp. unfold bind at 1. simpl. rewrite Ha. simpl.
  destruct (round_ctx_done r); simpl.
  - by rewrite app_nil_r.
  - by destruct (workerLoop src dst srcChannel rounds h' s1' s2').
Qed.

Lemma worker_next_round_witness :
  outcome_of (workerLoop src_chain dst_chain (ch "ch-0" OPEN)
                (round_of packets_idle acks_idle :: two_rounds_then_done)
                ∅ empty_slice empty_slice)
  = Returns LoopLeft.
Proof.
  rewrite (worker_next_round src_chain dst_chain (ch "ch-0" OPEN)
             (round_of packets_idle acks_idle) two_rounds_then_done
             ∅ ∅ empty_slice empty_slice empty_slice empty_slice _ _ eq_refl eq_refl).
  reflexivity.
Defined.

(** ** The settlement provider *)

Section SingletonFacts.

Import Singleton.

Lemma calls_initialized (first : CosmosProvider) (cps : list CosmosProvider) :
  calls cps (Some first)
  = (Some first, map (fun cp => (None, Some (already_initialized first cp))) cps).
Proof.
  induction cps as [|cp cps IH]; [done |].
  simpl. by rewrite IH.
Qed.

(** X14. Of any calls of [NewSettlementProvider] in a process, the first
    returns the provider and every later one returns no provider and an
    error that names the chain of the first provider and the chain of its
    own; the singleton is the first provider from then on. *)
Theorem settlement_singleton (cp : CosmosProvider) (cps : list CosmosProvider) :
  calls (cp :: cps) None
  = (Some cp,
     (Some cp, None) :: map (fun later => (None, Some (already_initialized cp later))) cps).
Proof. simpl. by rewrite calls_initialized. Qed.

End SingletonFacts.

Section OverflowFacts.

Import Settlement.

(** X15. When [StartHeight + NumBlocks] of a response lies above [2^63], up
    to [2^64], the height returned is negative, short of the mathematical
    [StartHeight + NumBlocks - 1] by [2^64], and the error is nil. *)
Theorem finalized_height_overflow (r : QueryGetLatestFinalizedStateInfoResponse) :
  Int.is_uint64 (StartHeight (StateInfo r)) ->
  Int.is_uint64 (NumBlocks (StateInfo r)) ->
  Int.two63 < StartHeight (StateInfo r) + NumBlocks (StateInfo r) <= Int.two64 ->
  QueryLatestFinalizedHeight (Some r) None
  = (StartHeight (StateInfo r) + NumBlocks (StateInfo r) - 1 - Int.two64, None) /\
  fst (QueryLatestFinalizedHeight (Some r) None) < 0.
Proof.
  intros Hs Hn Hsum.
  set (s := StartHeight (StateInfo r)) in *. set (n := NumBlocks (StateInfo r)) in *.
  assert (Heq : Int.int64_of_uint64 (Int.sub_uint64 (Int.add_uint64 s n) 1)
                = s + n - 1 - Int.two64).
  { unfold Int.int64_of_uint64, Int.sub_uint64, Int.add_uint64,
      Int.wrap_int64, Int.wrap_uint64, Int.two64, Int.two63 in *.
    rewrite Zminus_mod_idemp_l.
    rewrite (Z.mod_small (s + n - 1)) by lia.
    rewrite <- (Z.mod_unique (s + n - 1 + 2 ^ 63) (2 ^ 64) 1 (s + n - 1 + 2 ^ 63 - 2 ^ 64));
      lia. }
  unfold QueryLatestFinalizedHeight. fold s n. rewrite Heq. simpl.
  split; [done |]. unfold Int.two64, Int.two63 in *. lia.
Qed.

Lemma finalized_height_overflow_witness :
  QueryLatestFinalizedHeight (Some (finalized (2 ^ 63) 5)) None
  = (2 ^ 63 + 5 - 1 - Int.two64, None) /\
  fst (QueryLatestFinalizedHeight (Some (finalized (2 ^ 63) 5)) None) < 0.
Proof.
  apply (finalized_height_overflow (finalized (2 ^ 63) 5));
    unfold Int.is_uint64, Int.max_uint64, Int.two64, Int.two63; simpl; lia.
Defined.

End OverflowFacts.

(** ** The entry point *)

Lemma filter_keys_loop (l : list string) (fs fd : list ChannelKey) :
  fold_left
    (fun acc ch =>
       (fst acc ++ [{| ChannelID := ch; PortID := "";
                       CounterpartyChannelID := ""; CounterpartyPortID := "" |}],
        snd acc ++ [{| ChannelID := ""; PortID := "";
                       CounterpartyChannelID := ch; CounterpartyPortID := "" |}]))
    l (fs, fd)
  = (fs ++ map (fun ch => {| ChannelID := ch; PortID := "";
                            CounterpartyChannelID := ""; CounterpartyPortID := "" |}) l,
     fd ++ map (fun ch => {| ChannelID := ""; PortID := "";
                            CounterpartyChannelID := ch; CounterpartyPortID := "" |}) l).
Proof.
  revert fs fd. induction l as [|ch l IH]; intros fs fd; simpl.
  - by rewrite !app_nil_r.
  - rewrite IH. simpl. by rewrite <- !app_assoc.
Qed.

(** X16. In events mode [StartRelayer] makes both ends of the path with the
    rule of the filter; the keys of the source end carry the channel ids of
    the filter's list as channel ids, the keys of the destination end carry
    the same ids, in the same order, as counterparty channel ids, and every
    other field of a key is empty. [StartRelayer] panics exactly for the
    processor types other than "events" and "legacy". *)
Theorem StartRelayer_events_keys (filter : ChannelFilter) :
  (exists filterSrc filterDst,
     StartRelayer filter ProcessorEvents
     = Returns (LaunchEvents (Rule filter) filterSrc (Rule filter) filterDst) /\
     map ChannelID filterSrc = ChannelList filter /\
     map CounterpartyChannelID filterDst = ChannelList filter /\
     Forall (fun k => PortID k = "" /\ CounterpartyChannelID k = ""
                      /\ CounterpartyPortID k = "") filterSrc /\
     Forall (fun k => PortID k = "" /\ ChannelID k = ""
                      /\ CounterpartyPortID k = "") filterDst) /\
  (forall processorType,
     (exists v, StartRelayer filter processorType = Panics v) <->
     processorType <> ProcessorEvents /\ processorType <> ProcessorLegacy).
Proof.
  split.
  - eexists _, _. split; [reflexivity |].
    unfold filter_keys. rewrite filter_keys_loop. simpl.
    rewrite !map_map. simpl. rewrite !map_id.
    repeat split; apply Forall_forall; intros k Hk;
      apply list_elem_of_In, in_map_iff in Hk as (c & <- & _); done.
  - intros processorType. unfold StartRelayer.
    destruct (String.eqb_spec processorType ProcessorEvents) as [-> | Hne].
    + split; [intros [v Hv]; discriminate Hv | intros [H _]; done].
    + destruct (String.eqb_spec processorType ProcessorLegacy) as [-> | Hnl].
      * split; [intros [v Hv]; discriminate Hv | intros [_ H]; done].
      * split; [done | eauto].
Qed.
